(** * KC3Kai, CalculatorManager.js: the opponent fighter-power estimator

    A shallow embedding of [enemyFighterPower]
    (src/library/managers/CalculatorManager.js, lines 134-203) and the
    properties of its result tuple and of its exception map; the land-base
    reductions of the same file (lines 68-106) follow it.

    Modelling conventions.
    - A JavaScript number that the code computes with is an IEEE 754
      binary64 value ([spec_float] of the Standard Library, with its
      [SFadd], [SFmul] and [SFsqrt] at precision 53): the four totals are such
      numbers and [+=] is the binary64 addition, which rounds.
    - Master IDs, slot capacities and anti-air stats are integers of the game
      API and enter the function as [Z]; [of_Z] is the double of an integer
      (the nearest one, should the integer not be a double itself).
    - A value that may be [undefined]/[null] is an [option]; [x || y] picks
      [y] when [x] is falsy.
    - A JavaScript object used as a dictionary is a [gmap string _]; a number
      used as a property key is converted to its decimal string ([pretty]).
    - Reading a property of [undefined]/[null], or assigning one on [null],
      throws a [TypeError]: the code is written in a small completion monad
      so that the absence of such failures is a theorem and not an artefact
      of the embedding. *)

From Stdlib Require Import ZArith List Bool Lia Permutation.
From Stdlib Require Import Floats.SpecFloat.
From stdpp Require Import base option list gmap strings pretty.

Local Open Scope Z_scope.

(** ** JavaScript runtime fragment *)

Module JS.

Inductive error := TypeError.

(** The completion of a statement: normal, or abrupt by a thrown error. *)
Inductive completion (A : Type) :=
| Normal (a : A)
| Throw (e : error).
Global Arguments Normal {A} a.
Global Arguments Throw {A} e.

Global Instance completion_ret : MRet completion := @Normal.
Global Instance completion_bind : MBind completion := λ A B f c,
  match c with
  | Normal a => f a
  | Throw e => Throw e
  end.

(** [o.field] where [o] may be [undefined]. *)
Definition member {A B} (o : option A) (field : A → B) : completion B :=
  match o with
  | Some a => Normal (field a)
  | None => Throw TypeError
  end.

(** [!x] for a value that is an object when present. *)
Definition not_object {A} (o : option A) : bool :=
  match o with
  | Some _ => false
  | None => true
  end.

(** [(a || [])]. *)
Definition or_empty {A} (a : option (list A)) : list A := default [] a.

(** [a[i]] on an array whose entries may themselves be [undefined]. *)
Definition index {A} (a : list (option A)) (i : nat) : option A :=
  mjoin (a !! i).

(** binary64 *)
Definition prec : Z := 53.
Definition emax : Z := 1024.

(** The double of an integer (round to nearest, ties to even). *)
Definition of_Z (n : Z) : spec_float := binary_normalize prec emax n 0 false.

(** [x + y], [x * y] and [Math.sqrt(x)] on doubles. *)
Definition plus (x y : spec_float) : spec_float := SFadd prec emax x y.
Definition times (x y : spec_float) : spec_float := SFmul prec emax x y.
Definition Math_sqrt (x : spec_float) : spec_float := SFsqrt prec emax x.

(** [Math.floor(x)]: the double of the largest integer below or at [x];
    zeros, infinities and NaN are returned as they are. *)
Definition Math_floor (x : spec_float) : spec_float :=
  match x with
  | S754_finite s m e =>
      binary_normalize prec emax
        (Z.shiftl (if s then Z.neg m else Z.pos m) e) 0 s
  | _ => x
  end.

End JS.
Import JS.

(** ** Data model *)

(** [KC3Master.ship(id)] / [KC3Master.abyssalShip(id)] records: the default
    gear IDs of the slots and the default capacity of each slot; either
    field may be missing from a record. *)
Record ShipMaster := {
  kc3_slots : option (list Z);
  api_maxeq : option (list Z)
}.

(** [KC3Master.slotitem(id)] records: the category-type tuple and the
    anti-air stat, which may be missing. *)
Record GearMaster := {
  api_type : list Z;
  api_tyku : option Z
}.

(** The read-only lookup service [KC3Master]. *)
Record MasterData := {
  isAbyssalShip : Z → bool;
  abyssalShip : Z → bool → option ShipMaster;
  ship : Z → option ShipMaster;
  slotitem : Z → option GearMaster
}.

(** The configuration object [KC3GearManager]. *)
Record GearManager := {
  antiAirFighterType2Ids : list Z
}.

(** [{gearId: null || aaStat || 'recon'}] *)
Inductive gear_exception :=
| GearNull
| GearStat (aaStat : Z)
| GearRecon.

(** [{shipId: null || {...}}] *)
Inductive ship_exception :=
| ShipNull
| ShipGears (gears : gmap string gear_exception).

(** [totalPower] starts as [false] and becomes a number at the first [+=]. *)
Inductive power :=
| PFalse
| PNum (x : spec_float).

(** [false] counts as 0 in an addition. *)
Definition to_number (p : power) : spec_float :=
  match p with
  | PFalse => of_Z 0
  | PNum x => x
  end.

(** [p += x] *)
Definition power_add_assign (p : power) (x : spec_float) : power :=
  PNum (plus (to_number p) x).

(** The variables of [enemyFighterPower] that the loops update. *)
Record locals := Locals {
  totalPower : power;
  totalCapacity : spec_float;
  noAirPowerCapacity : spec_float;
  reconCapacity : spec_float;
  exceptions : gmap string ship_exception
}.

(** An element of the returned array. *)
Inductive value :=
| VPower (p : power)
| VNumber (x : spec_float)
| VExceptions (e : gmap string ship_exception).

(** ** Small helpers for the operators the code uses *)

(** [x || {}] on an entry of the exception map ([null] is falsy). *)
Definition or_object (x : option ship_exception) : ship_exception :=
  match x with
  | Some (ShipGears gears) => ShipGears gears
  | Some ShipNull | None => ShipGears ∅
  end.

(** [x[key] = v] on an entry of the exception map. *)
Definition assign (x : option ship_exception) (key : string)
    (v : gear_exception) : completion ship_exception :=
  match x with
  | Some (ShipGears gears) => Normal (ShipGears (<[key := v]> gears))
  | Some ShipNull | None => Throw TypeError
  end.

(** [ids.includes(x)] *)
Definition includes (ids : list Z) (x : option Z) : bool :=
  match x with
  | Some v => existsb (Z.eqb v) ids
  | None => false
  end.

(** [x === n] *)
Definition strict_equal (x : option Z) (n : Z) : bool :=
  match x with
  | Some v => v =? n
  | None => false
  end.

(** [x || 0] *)
Definition or_zero (x : option Z) : Z := default 0 x.

(** [!shipId || shipId < 0]: the IDs that the ship loop skips. *)
Definition is_placeholder (shipId : option Z) : bool :=
  match shipId with
  | Some id => (id =? 0) || (id <? 0)
  | None => true
  end.

(** A loop over an array that hands the index and the element to its body:
    [$.each(a, (i, x) => ...)] with a callback that never returns [false],
    and [for(let i = 0; i < a.length; i++)] whose body reads [a[i]]. *)
Fixpoint for_each {A St : Type} (body : nat → A → St → completion St)
    (i : nat) (a : list A) (st : St) : completion St :=
  match a with
  | [] => mret st
  | x :: rest => st' ← body i x st; for_each body (S i) rest st'
  end.

(** ** The function *)

Section EnemyFighterPower.

Variable KC3Master : MasterData.
Variable KC3GearManager : GearManager.

(** [exceptions[shipId] = exceptions[shipId] || {};
     exceptions[shipId][gearId] = v;] *)
Definition set_gear_exception (exceptions : gmap string ship_exception)
    (shipId gearId : Z) (v : gear_exception)
    : completion (gmap string ship_exception) :=
  let exceptions :=
    <[pretty shipId := or_object (exceptions !! pretty shipId)]> exceptions in
  entry ← assign (exceptions !! pretty shipId) (pretty gearId) v;
  mret (<[pretty shipId := entry]> exceptions).

(** [((enemySlotSizes || [])[shipIdx] || shipMst.api_maxeq || [])[slotIdx]] *)
Definition capacity_at (enemySlotSizes : option (list (option (list Z))))
    (shipIdx : nat) (shipMst : option ShipMaster) (slotIdx : nat)
    : completion (option Z) :=
  match index (or_empty enemySlotSizes) shipIdx with
  | Some sizes => mret (sizes !! slotIdx)
  | None =>
      maxeq ← member shipMst api_maxeq;
      mret (or_empty maxeq !! slotIdx)
  end.

(** The body of the loop over the filtered slots (lines 166-199). *)
Definition gear_body (enemySlotSizes : option (list (option (list Z))))
    (shipIdx : nat) (shipId : Z) (shipMst : option ShipMaster)
    (slotIdx : nat) (gearId : Z) (st : locals) : completion locals :=
  let gearMst := slotitem KC3Master gearId in
  if not_object gearMst then
    e ← set_gear_exception (exceptions st) shipId gearId GearNull;
    mret (Locals (totalPower st) (totalCapacity st)
            (noAirPowerCapacity st) (reconCapacity st) e)
  else
    type ← member gearMst api_type;
    if includes (antiAirFighterType2Ids KC3GearManager) (type !! 2%nat) then
      tyku ← member gearMst api_tyku;
      let aaStat := or_zero tyku in
      capacity ← capacity_at enemySlotSizes shipIdx shipMst slotIdx;
      match capacity with
      | Some capacity =>
          if 0 <? aaStat then
            mret (Locals
              (power_add_assign (totalPower st)
                 (Math_floor (times (Math_sqrt (of_Z capacity)) (of_Z aaStat))))
              (plus (totalCapacity st) (of_Z capacity))
              (noAirPowerCapacity st) (reconCapacity st) (exceptions st))
          else
            mret (Locals (totalPower st) (totalCapacity st)
                    (plus (noAirPowerCapacity st) (of_Z capacity))
                    (reconCapacity st) (exceptions st))
      | None =>
          e ← set_gear_exception (exceptions st) shipId gearId (GearStat aaStat);
          mret (Locals (totalPower st) (totalCapacity st)
                  (noAirPowerCapacity st) (reconCapacity st) e)
      end
    else if strict_equal (type !! 1%nat) 7 then
      capacity ← capacity_at enemySlotSizes shipIdx shipMst slotIdx;
      match capacity with
      | Some capacity =>
          mret (Locals (totalPower st) (totalCapacity st)
                  (noAirPowerCapacity st)
                  (plus (reconCapacity st) (of_Z capacity)) (exceptions st))
      | None =>
          e ← set_gear_exception (exceptions st) shipId gearId GearRecon;
          mret (Locals (totalPower st) (totalCapacity st)
                  (noAirPowerCapacity st) (reconCapacity st) e)
      end
    else mret st.

(** The callback of [$.each(enemyFleetShips, ...)] (lines 145-201). *)
Definition ship_body (enemyShipSlots enemySlotSizes : option (list (option (list Z))))
    (shipIdx : nat) (shipId : option Z) (st : locals) : completion locals :=
  match shipId with
  | None => mret st
  | Some shipId =>
    if (shipId =? 0) || (shipId <? 0) then mret st
    else
      let shipMst :=
        if isAbyssalShip KC3Master shipId
        then abyssalShip KC3Master shipId true
        else ship KC3Master shipId in
      if not_object shipMst then
        mret (Locals (totalPower st) (totalCapacity st)
                (noAirPowerCapacity st) (reconCapacity st)
                (<[pretty shipId := ShipNull]> (exceptions st)))
      else
        shipSlots ← match index (or_empty enemyShipSlots) shipIdx with
                    | Some slots => mret (Some slots)
                    | None => member shipMst kc3_slots
                    end;
        match shipSlots with
        | None =>
            mret (Locals (totalPower st) (totalCapacity st)
                    (noAirPowerCapacity st) (reconCapacity st)
                    (<[pretty shipId := ShipGears ∅]> (exceptions st)))
        | Some shipSlots =>
            let shipSlots := filter (λ id, 0 < id) shipSlots in
            for_each (gear_body enemySlotSizes shipIdx shipId shipMst)
              0%nat shipSlots st
        end
  end.

Definition enemyFighterPower (enemyFleetShips : option (list (option Z)))
    (enemyShipSlots enemySlotSizes : option (list (option (list Z))))
    : completion (list value) :=
  let st := Locals PFalse (of_Z 0) (of_Z 0) (of_Z 0) ∅ in
  match enemyFleetShips with
  | None =>
      mret [VPower (totalPower st); VNumber (totalCapacity st);
            VExceptions (<["ship" := ShipNull]> (exceptions st))]
  | Some ships =>
      st ← for_each (ship_body enemyShipSlots enemySlotSizes) 0%nat ships st;
      mret [VPower (totalPower st); VNumber (totalCapacity st);
            VNumber (noAirPowerCapacity st); VNumber (reconCapacity st);
            VExceptions (exceptions st)]
  end.

End EnemyFighterPower.

(** ** The land-base functions of the file

    They are reductions over the land bases that [PlayerManager] holds.  The
    methods of a base ([calcResupplyCost()], [worstCond()], ...) belong to
    another file; a base is modelled as the record of what its methods
    return, costs and cond values being integers. *)

(** [{fuel: .., ammo: .., steel: .., bauxite: ..}] *)
Record resources (A : Type) := Resources {
  fuel : A;
  ammo : A;
  steel : A;
  bauxite : A
}.
Arguments Resources {A} fuel ammo steel bauxite.
Arguments fuel {A} r.
Arguments ammo {A} r.
Arguments steel {A} r.
Arguments bauxite {A} r.

Record LandBase := {
  action : Z;
  calcResupplyCost : resources Z;
  calcSortieCost : resources Z;
  worstCond : Z
}.

Record Player := {
  bases : list LandBase
}.

(** [Object.keys(total).map(k => { total[k] += cost[k]; })] *)
Definition add_cost (total : resources spec_float) (cost : resources Z)
    : resources spec_float :=
  Resources (plus (fuel total) (of_Z (fuel cost)))
    (plus (ammo total) (of_Z (ammo cost)))
    (plus (steel total) (of_Z (steel cost)))
    (plus (bauxite total) (of_Z (bauxite cost))).

Section Calculator.

Variable PlayerManager : Player.

(** Lines 68-75. *)
Definition getLandBasesResupplyCost : resources spec_float :=
  foldl (λ total base, add_cost total (calcResupplyCost base))
    (Resources (of_Z 0) (of_Z 0) (of_Z 0) (of_Z 0)) (bases PlayerManager).

(** Lines 82-91. *)
Definition getLandBasesSortieCost : resources spec_float :=
  foldl (λ total base,
           if action base =? 1 then add_cost total (calcSortieCost base)
           else total)
    (Resources (of_Z 0) (of_Z 0) (of_Z 0) (of_Z 0)) (bases PlayerManager).

(** Lines 98-106; [Math.max] of two integers is their maximum. *)
Definition getLandBasesWorstCond : Z :=
  foldl (λ worst base,
           if action base =? 1 then Z.max worst (worstCond base) else worst)
    1 (bases PlayerManager).

End Calculator.

(** ** A small master database to run the function on *)

Module Sample.

Definition fighter : GearMaster :=       (* gear 519 *)
  {| api_type := [3; 5; 6; 6; 0]; api_tyku := Some 10 |}.
Definition bomber : GearMaster :=        (* gear 520: no anti-air stat *)
  {| api_type := [3; 5; 7; 7; 0]; api_tyku := None |}.
Definition zero_bomber : GearMaster :=   (* gear 521: anti-air stat 0 *)
  {| api_type := [3; 5; 8; 8; 0]; api_tyku := Some 0 |}.
Definition recon : GearMaster :=         (* gear 530 *)
  {| api_type := [5; 7; 9; 9; 0]; api_tyku := Some 0 |}.
Definition recon_fighter : GearMaster := (* gear 531: both classes *)
  {| api_type := [5; 7; 6; 9; 0]; api_tyku := Some 4 |}.
Definition gun : GearMaster :=           (* gear 501 *)
  {| api_type := [1; 1; 1; 1; 0]; api_tyku := Some 2 |}.

Definition carrier : ShipMaster :=       (* ship 1510 *)
  {| kc3_slots := Some [519; 520; 530; -1]; api_maxeq := Some [9; 5; 4; 0] |}.
Definition bare : ShipMaster :=          (* ship 1520: no layout known *)
  {| kc3_slots := None; api_maxeq := None |}.
Definition tender : ShipMaster :=        (* ship 101, a normal ship *)
  {| kc3_slots := Some [501; 530]; api_maxeq := Some [0; 2] |}.

Definition KC3Master : MasterData :=
  {| isAbyssalShip := λ id, 1500 <? id;
     abyssalShip := λ id _,
       if id =? 1510 then Some carrier
       else if id =? 1520 then Some bare else None;
     ship := λ id, if id =? 101 then Some tender else None;
     slotitem := λ id,
       if id =? 519 then Some fighter
       else if id =? 520 then Some bomber
       else if id =? 521 then Some zero_bomber
       else if id =? 530 then Some recon
       else if id =? 531 then Some recon_fighter
       else if id =? 501 then Some gun
       else None |}.

Definition KC3GearManager : GearManager :=
  {| antiAirFighterType2Ids := [6; 7; 8; 11; 45; 56; 57; 58] |}.

End Sample.

(** ** A player with three land bases *)

Module SamplePlayer.

Definition base_on_sortie : LandBase :=
  {| action := 1; calcResupplyCost := Resources 12 0 0 20;
     calcSortieCost := Resources 54 27 0 0;
     worstCond := 2 |}.
Definition base_on_defense : LandBase :=
  {| action := 2; calcResupplyCost := Resources 3 0 0 5;
     calcSortieCost := Resources 36 18 0 0;
     worstCond := 3 |}.
Definition base_tired : LandBase :=
  {| action := 1; calcResupplyCost := Resources 0 0 0 0;
     calcSortieCost := Resources 18 9 0 0;
     worstCond := 3 |}.

Definition PlayerManager : Player :=
  {| bases := [base_on_sortie; base_on_defense; base_tired] |}.

End SamplePlayer.

(** ** Proof-side definitions

    The loops as pure folds, the outcome of a slot, the data gaps in the
    words of the specification, and the integers behind the doubles. *)

#[global] Instance spec_float_eq_dec : EqDecision spec_float.
Proof. solve_decision. Defined.

(** The state after a loop whose body always completes normally. *)
Fixpoint fold_indexed {A St : Type} (f : nat → A → St → St)
    (i : nat) (a : list A) (st : St) : St :=
  match a with
  | [] => st
  | x :: rest => fold_indexed f (S i) rest (f i x st)
  end.

(** The double [Math.floor(Math.sqrt(c) * s)] and the check that it is the
    integer part of the real [sqrt(c) * s], for all [c <= cmax] and
    [1 <= s <= smax]. *)
Definition floor_sqrt_times (c s : Z) : spec_float :=
  Math_floor (times (Math_sqrt (of_Z c)) (of_Z s)).

Definition exact_upto (cmax smax : nat) : bool :=
  forallb (λ c,
    forallb (λ s,
      bool_decide
        (floor_sqrt_times (Z.of_nat c) (Z.of_nat (S s))
         = of_Z (Z.sqrt (Z.of_nat c * Z.of_nat (S s) * Z.of_nat (S s)))))
      (seq 0 smax)) (seq 0 (S cmax)).

(** A positive integer shifted left, and the double of a positive integer
    below [2^53]: its 53-bit mantissa and its exponent. *)
Definition shl (p : positive) (k : Z) : positive :=
  match k with
  | Zpos k => Pos.iter xO p k
  | _ => p
  end.

Definition canon (p : positive) : spec_float :=
  S754_finite false (shl p (53 - Zpos (digits2_pos p)))
    (Zpos (digits2_pos p) - 53).

(** The non-negative integer that a double is, if it is one. *)
Definition integer_of (x : spec_float) : option Z :=
  match x with
  | S754_zero false => Some 0
  | S754_finite false m e =>
      let k := Z.shiftl (Zpos m) e in
      if decide (of_Z k = x) then Some k else None
  | _ => None
  end.

(** The override layouts with the placeholders (the IDs that are not
    positive) dropped. *)
Definition drop_placeholders (enemyShipSlots : option (list (option (list Z))))
    : option (list (option (list Z))) :=
  fmap (M := list) (fmap (M := option) (filter (λ id : Z, 0 < id)))
    <$> enemyShipSlots.

(** The bases that are set to sortie. *)
Definition on_sortie (bases : list LandBase) : list LandBase :=
  filter (λ base, action base = 1) bases.

(** The sum of the integers of a list. *)
Definition sum_of (l : list Z) : Z := foldr Z.add 0 l.

(** Costs as integers: none of the four is negative; their sums over a
    list; all four below a bound; and the doubles that hold them. *)
Definition nonneg (cost : resources Z) : Prop :=
  0 ≤ fuel cost ∧ 0 ≤ ammo cost ∧ 0 ≤ steel cost ∧ 0 ≤ bauxite cost.

Definition sums (costs : list (resources Z)) : resources Z :=
  Resources (sum_of (fuel <$> costs)) (sum_of (ammo <$> costs))
    (sum_of (steel <$> costs)) (sum_of (bauxite <$> costs)).

Definition below (bound : Z) (cost : resources Z) : Prop :=
  fuel cost < bound ∧ ammo cost < bound
  ∧ steel cost < bound ∧ bauxite cost < bound.

Definition doubles (cost : resources Z) : resources spec_float :=
  Resources (of_Z (fuel cost)) (of_Z (ammo cost))
    (of_Z (steel cost)) (of_Z (bauxite cost)).

(** How one slot ends: with an entry in the exception map, with a
    contribution to one of the totals, or without any trace. *)
Inductive outcome :=
| Fails (v : gear_exception)
| Powered (capacity : Z) (x : spec_float)
| Unpowered (capacity : Z)
| Recon (capacity : Z)
| Ignored.

(** The nested map of a ship's entry, [{}] when there is none yet. *)
Definition gears_of (x : option ship_exception) : gmap string gear_exception :=
  match x with
  | Some (ShipGears gears) => gears
  | Some ShipNull | None => ∅
  end.

Definition record_exception (exceptions : gmap string ship_exception)
    (shipId gearId : Z) (v : gear_exception) : gmap string ship_exception :=
  <[pretty shipId :=
      ShipGears (<[pretty gearId := v]> (gears_of (exceptions !! pretty shipId)))]>
    exceptions.

Definition apply_outcome (shipId gearId : Z) (o : outcome) (st : locals) : locals :=
  match o with
  | Fails v =>
      Locals (totalPower st) (totalCapacity st) (noAirPowerCapacity st)
        (reconCapacity st) (record_exception (exceptions st) shipId gearId v)
  | Powered capacity x =>
      Locals (power_add_assign (totalPower st) x)
        (plus (totalCapacity st) (of_Z capacity))
        (noAirPowerCapacity st) (reconCapacity st) (exceptions st)
  | Unpowered capacity =>
      Locals (totalPower st) (totalCapacity st)
        (plus (noAirPowerCapacity st) (of_Z capacity))
        (reconCapacity st) (exceptions st)
  | Recon capacity =>
      Locals (totalPower st) (totalCapacity st) (noAirPowerCapacity st)
        (plus (reconCapacity st) (of_Z capacity)) (exceptions st)
  | Ignored => st
  end.

(** The four numeric variables, and what a slot does to them. *)
Definition totals : Type := power * spec_float * spec_float * spec_float.

Definition totals_of (st : locals) : totals :=
  (totalPower st, totalCapacity st, noAirPowerCapacity st, reconCapacity st).

Definition add_outcome (t : totals) (o : outcome) : totals :=
  let '(p, c, n, r) := t in
  match o with
  | Powered capacity x => (power_add_assign p x, plus c (of_Z capacity), n, r)
  | Unpowered capacity => (p, c, plus n (of_Z capacity), r)
  | Recon capacity => (p, c, n, plus r (of_Z capacity))
  | Fails _ | Ignored => t
  end.

Definition is_powered (o : outcome) : bool :=
  match o with
  | Powered _ _ => true
  | _ => false
  end.

(** The integers that the slots add to the four totals, when they are
    integers that are not negative: the power term, and the capacity that
    goes to [totalCapacity], [noAirPowerCapacity] or [reconCapacity]. *)
Definition counts : Type := Z * Z * Z * Z.

Definition counts_plus (a b : counts) : counts :=
  let '(p, c, n, r) := a in
  let '(p', c', n', r') := b in
  (p + p', c + c', n + n', r + r').

Definition exact_outcome (o : outcome) : option counts :=
  match o with
  | Powered capacity x =>
      if 0 <=? capacity
      then k ← integer_of x; Some (k, capacity, 0, 0)
      else None
  | Unpowered capacity =>
      if 0 <=? capacity then Some (0, 0, capacity, 0) else None
  | Recon capacity =>
      if 0 <=? capacity then Some (0, 0, 0, capacity) else None
  | Fails _ | Ignored => Some (0, 0, 0, 0)
  end.

(** The exact sums of the contributions of a list of slots. *)
Fixpoint exact_sums (os : list outcome) : option counts :=
  match os with
  | [] => Some (0, 0, 0, 0)
  | o :: rest =>
      a ← exact_outcome o; b ← exact_sums rest; Some (counts_plus a b)
  end.

(** The totals that hold the doubles of given integers. *)
Definition totals_of_counts (powered : bool) (z : counts) : totals :=
  let '(p, c, n, r) := z in
  (if powered then PNum (of_Z p) else PFalse, of_Z c, of_Z n, of_Z r).

Section Effects.

Variable KC3Master : MasterData.
Variable KC3GearManager : GearManager.

(** The ship record the code looks up for an ID (lines 150-151). *)
Definition ship_master (shipId : Z) : option ShipMaster :=
  if isAbyssalShip KC3Master shipId
  then abyssalShip KC3Master shipId true
  else ship KC3Master shipId.

(** The slot layout the code settles on (line 157), given the entry
    [(enemyShipSlots || [])[shipIdx]]. *)
Definition layout_of (override : option (list Z)) (shipMst : ShipMaster)
    : option (list Z) :=
  match override with
  | Some slots => Some slots
  | None => kc3_slots shipMst
  end.

(** The capacity the code reads for a slot (lines 176 and 192), given the
    entry [(enemySlotSizes || [])[shipIdx]]. *)
Definition resolved_capacity (override : option (list Z))
    (shipMst : ShipMaster) (slotIdx : nat) : option Z :=
  match override with
  | Some sizes => sizes !! slotIdx
  | None => or_empty (api_maxeq shipMst) !! slotIdx
  end.

Definition is_fighter (gearMst : GearMaster) : bool :=
  includes (antiAirFighterType2Ids KC3GearManager) (api_type gearMst !! 2%nat).

Definition is_recon (gearMst : GearMaster) : bool :=
  strict_equal (api_type gearMst !! 1%nat) 7.

Definition slot_outcome (sizes : option (list Z)) (shipMst : ShipMaster)
    (slotIdx : nat) (gearId : Z) : outcome :=
  match slotitem KC3Master gearId with
  | None => Fails GearNull
  | Some gearMst =>
      if is_fighter gearMst then
        match resolved_capacity sizes shipMst slotIdx with
        | Some capacity =>
            if 0 <? or_zero (api_tyku gearMst)
            then Powered capacity
                   (Math_floor (times (Math_sqrt (of_Z capacity))
                                  (of_Z (or_zero (api_tyku gearMst)))))
            else Unpowered capacity
        | None => Fails (GearStat (or_zero (api_tyku gearMst)))
        end
      else if is_recon gearMst then
        match resolved_capacity sizes shipMst slotIdx with
        | Some capacity => Recon capacity
        | None => Fails GearRecon
        end
      else Ignored
  end.

(** The loop over the filtered slots of one ship. *)
Definition slots_step (sizes : option (list Z)) (shipId : Z)
    (shipMst : ShipMaster) : nat → list Z → locals → locals :=
  fold_indexed (λ slotIdx gearId,
    apply_outcome shipId gearId (slot_outcome sizes shipMst slotIdx gearId)).

(** One round of the loop over the ships, given the ship's entries in the
    two override arrays. *)
Definition ship_step (shipId : option Z) (slots sizes : option (list Z))
    (st : locals) : locals :=
  match shipId with
  | None => st
  | Some shipId =>
      if (shipId =? 0) || (shipId <? 0) then st
      else
        match ship_master shipId with
        | None =>
            Locals (totalPower st) (totalCapacity st) (noAirPowerCapacity st)
              (reconCapacity st) (<[pretty shipId := ShipNull]> (exceptions st))
        | Some shipMst =>
            match layout_of slots shipMst with
            | None =>
                Locals (totalPower st) (totalCapacity st)
                  (noAirPowerCapacity st) (reconCapacity st)
                  (<[pretty shipId := ShipGears ∅]> (exceptions st))
            | Some shipSlots =>
                slots_step sizes shipId shipMst 0%nat
                  (filter (λ id, 0 < id) shipSlots) st
            end
        end
  end.

Definition initial : locals := Locals PFalse (of_Z 0) (of_Z 0) (of_Z 0) ∅.

Definition result_array (st : locals) : list value :=
  [VPower (totalPower st); VNumber (totalCapacity st);
   VNumber (noAirPowerCapacity st); VNumber (reconCapacity st);
   VExceptions (exceptions st)].

(** The loop over the ships. *)
Definition fleet_step (enemyShipSlots enemySlotSizes : option (list (option (list Z))))
    : nat → list (option Z) → locals → locals :=
  fold_indexed (λ shipIdx shipId,
    ship_step shipId (index (or_empty enemyShipSlots) shipIdx)
      (index (or_empty enemySlotSizes) shipIdx)).

(** The rows of a fleet: each ship ID with its entries in the two
    optional parallel arrays. *)
Definition row : Type := option Z * option (list Z) * option (list Z).

Definition row_at (ships : list (option Z))
    (enemyShipSlots enemySlotSizes : option (list (option (list Z))))
    (shipIdx : nat) : row :=
  (index ships shipIdx, index (or_empty enemyShipSlots) shipIdx,
   index (or_empty enemySlotSizes) shipIdx).

(** Reordering the ships, with their entries of the override arrays. *)
Definition reorder {A} (order : list nat) (a : list (option A))
    : list (option A) :=
  (λ shipIdx, index a shipIdx) <$> order.

(** The outcomes of the slots of one ship, of a row and of a fleet, in
    the order in which the loops meet them. *)
Fixpoint slots_outcomes (sizes : option (list Z)) (shipMst : ShipMaster)
    (slotIdx : nat) (shipSlots : list Z) : list outcome :=
  match shipSlots with
  | [] => []
  | gearId :: rest =>
      slot_outcome sizes shipMst slotIdx gearId
      :: slots_outcomes sizes shipMst (S slotIdx) rest
  end.

Definition row_outcomes (r : row) : list outcome :=
  let '(shipId, slots, sizes) := r in
  match shipId with
  | None => []
  | Some shipId =>
      if (shipId =? 0) || (shipId <? 0) then []
      else
        match ship_master shipId with
        | None => []
        | Some shipMst =>
            match layout_of slots shipMst with
            | None => []
            | Some shipSlots =>
                slots_outcomes sizes shipMst 0%nat
                  (filter (λ id, 0 < id) shipSlots)
            end
        end
  end.

Definition fleet_outcomes (ships : list (option Z))
    (enemyShipSlots enemySlotSizes : option (list (option (list Z))))
    : list outcome :=
  concat (row_outcomes <$>
            (row_at ships enemyShipSlots enemySlotSizes <$>
               seq 0 (length ships))).

(** The entry a slot leaves in the exception map, if any. *)
Definition slot_failure (sizes : option (list Z)) (shipMst : ShipMaster)
    (slotIdx : nat) (gearId : Z) : option gear_exception :=
  match slot_outcome sizes shipMst slotIdx gearId with
  | Fails v => Some v
  | _ => None
  end.

(** The failing slots of a ship, in slot order, each with its entry. *)
Fixpoint failures (sizes : option (list Z)) (shipMst : ShipMaster)
    (slotIdx : nat) (shipSlots : list Z) : list (Z * gear_exception) :=
  match shipSlots with
  | [] => []
  | gearId :: rest =>
      match slot_failure sizes shipMst slotIdx gearId with
      | Some v => (gearId, v) :: failures sizes shipMst (S slotIdx) rest
      | None => failures sizes shipMst (S slotIdx) rest
      end
  end.

Definition record_all (shipId : Z) (fl : list (Z * gear_exception))
    (exceptions : gmap string ship_exception) : gmap string ship_exception :=
  foldl (λ e p, record_exception e shipId p.1 p.2) exceptions fl.

Definition insert_all (fl : list (Z * gear_exception))
    (gears : gmap string gear_exception) : gmap string gear_exception :=
  foldl (λ m p, <[pretty p.1 := p.2]> m) gears fl.

(** *** The data gaps, in the words of the specification

    [gear_unresolved sizes shipMst shipSlots gearId v]: a slot of the
    (filtered) layout [shipSlots] holds [gearId], and a needed datum of it
    could not be resolved; [v] tells which. *)
Inductive gear_unresolved (sizes : option (list Z)) (shipMst : ShipMaster)
    (shipSlots : list Z) : Z → gear_exception → Prop :=
| missing_gear_master j gearId :
    shipSlots !! j = Some gearId →
    slotitem KC3Master gearId = None →
    gear_unresolved sizes shipMst shipSlots gearId GearNull
| missing_fighter_capacity j gearId gearMst :
    shipSlots !! j = Some gearId →
    slotitem KC3Master gearId = Some gearMst →
    is_fighter gearMst = true →
    resolved_capacity sizes shipMst j = None →
    gear_unresolved sizes shipMst shipSlots gearId
      (GearStat (or_zero (api_tyku gearMst)))
| missing_recon_capacity j gearId gearMst :
    shipSlots !! j = Some gearId →
    slotitem KC3Master gearId = Some gearMst →
    is_fighter gearMst = false →
    is_recon gearMst = true →
    resolved_capacity sizes shipMst j = None →
    gear_unresolved sizes shipMst shipSlots gearId GearRecon.

(** [ship_unresolved slots sizes shipId x]: the ship's data could not be
    resolved in full, and [x] is what the exception map says about it. *)
Inductive ship_unresolved (slots sizes : option (list Z)) (shipId : Z)
    : ship_exception → Prop :=
| missing_ship_master :
    ship_master shipId = None →
    ship_unresolved slots sizes shipId ShipNull
| missing_layout shipMst :
    ship_master shipId = Some shipMst →
    layout_of slots shipMst = None →
    ship_unresolved slots sizes shipId (ShipGears ∅)
| missing_gear_data shipMst shipSlots gears :
    ship_master shipId = Some shipMst →
    layout_of slots shipMst = Some shipSlots →
    gears ≠ ∅ →
    (∀ k v, gears !! k = Some v ↔
       ∃ gearId, k = pretty gearId
         ∧ gear_unresolved sizes shipMst
             (filter (λ id, 0 < id) shipSlots) gearId v) →
    ship_unresolved slots sizes shipId (ShipGears gears).

(** What a ship leaves under its key in a map that had no such key. *)
Definition ship_entry (shipId : Z) (slots sizes : option (list Z))
    : option ship_exception :=
  match ship_master shipId with
  | None => Some ShipNull
  | Some shipMst =>
      match layout_of slots shipMst with
      | None => Some (ShipGears ∅)
      | Some shipSlots =>
          match failures sizes shipMst 0%nat (filter (λ id, 0 < id) shipSlots) with
          | [] => None
          | fl => Some (ShipGears (insert_all fl ∅))
          end
      end
  end.

(** ** Binary64: the doubles of the integers below [2^53] *)

Lemma digits_iter_xO p k :
  digits2_pos (Pos.iter xO p k) = (digits2_pos p + k)%positive.
Proof.
  induction k as [|k IH] using Pos.peano_ind.
  - simpl. lia.
  - rewrite Pos.iter_succ. simpl. rewrite IH. lia.
Qed.

Lemma digits_shl p k : 0 <= k -> Zpos (digits2_pos (shl p k)) = Zpos (digits2_pos p) + k.
Proof.
  destruct k as [|k|k]; simpl; intros; try lia.
  rewrite digits_iter_xO. lia.
Qed.

Lemma Zpos_iter_xO p k : Zpos (Pos.iter xO p k) = Zpos p * 2 ^ Zpos k.
Proof.
  induction k as [|k IH] using Pos.peano_ind.
  - simpl. lia.
  - rewrite Pos.iter_succ, Pos2Z.inj_succ, Z.pow_succ_r by lia.
    rewrite Pos2Z.inj_xO, IH. lia.
Qed.

Lemma Zpos_shl p k : 0 <= k -> Zpos (shl p k) = Zpos p * 2 ^ k.
Proof.
  destruct k as [|k|k]; simpl; intros; try lia.
  apply Zpos_iter_xO.
Qed.

Lemma shl_shl p j k : 0 <= j -> 0 <= k -> shl (shl p j) k = shl p (j + k).
Proof.
  intros. apply Pos2Z.inj. rewrite !Zpos_shl by lia.
  rewrite Z.pow_add_r by lia. lia.
Qed.

Lemma digits_bounds p : 2 ^ (Zpos (digits2_pos p) - 1) <= Zpos p < 2 ^ Zpos (digits2_pos p).
Proof.
  induction p as [p IH|p IH|]; simpl digits2_pos.
  - rewrite Pos2Z.inj_succ.
    replace (Z.succ (Zpos (digits2_pos p)) - 1) with (Z.succ (Zpos (digits2_pos p) - 1)) by lia.
    rewrite !Z.pow_succ_r by lia. lia.
  - rewrite Pos2Z.inj_succ.
    replace (Z.succ (Zpos (digits2_pos p)) - 1) with (Z.succ (Zpos (digits2_pos p) - 1)) by lia.
    rewrite !Z.pow_succ_r by lia. lia.
  - simpl. lia.
Qed.

Lemma digits_le_53 p : Zpos p < 2 ^ 53 -> Zpos (digits2_pos p) <= 53.
Proof.
  intros Hp. pose proof (digits_bounds p) as [Hlo _].
  destruct (Z.le_gt_cases (Zpos (digits2_pos p)) 53) as [|Hgt]; [done|].
  assert (2 ^ 53 <= 2 ^ (Zpos (digits2_pos p) - 1)) by (apply Z.pow_le_mono_r; lia).
  lia.
Qed.

Lemma digits_mono p q : Zpos p <= Zpos q -> Zpos (digits2_pos p) <= Zpos (digits2_pos q).
Proof.
  intros Hpq. pose proof (digits_bounds p) as [Hlo _].
  pose proof (digits_bounds q) as [_ Hhi].
  destruct (Z.le_gt_cases (Zpos (digits2_pos p)) (Zpos (digits2_pos q))) as [|Hgt]; [done|].
  assert (2 ^ Zpos (digits2_pos q) <= 2 ^ (Zpos (digits2_pos p) - 1)) by (apply Z.pow_le_mono_r; lia).
  lia.
Qed.

Lemma iter_pos_eq {A} (f : A -> A) n x : SpecFloat.iter_pos f n x = Pos.iter f x n.
Proof.
  revert x. induction n as [n IH|n IH|]; intros x; simpl.
  - rewrite !IH. rewrite <- !Pos.iter_swap. reflexivity.
  - rewrite !IH. reflexivity.
  - reflexivity.
Qed.

Lemma shr_zeros q n :
  SpecFloat.iter_pos shr_1 n (Build_shr_record (Zpos (Pos.iter xO q n)) false false)
  = Build_shr_record (Zpos q) false false.
Proof.
  rewrite iter_pos_eq.
  induction n as [|n IH] using Pos.peano_ind.
  - reflexivity.
  - rewrite (Pos.iter_succ n _ xO), Pos.iter_succ, <- Pos.iter_swap. simpl. exact IH.
Qed.

Lemma round_aux_canonical m e :
  Zpos (digits2_pos m) = 53 -> -1074 <= e <= 971 ->
  binary_round_aux prec emax false (Zpos m) e loc_Exact = S754_finite false m e.
Proof.
  intros Hd He. unfold binary_round_aux, shr_fexp. simpl Zdigits2.
  assert (Hf : fexp prec emax (Zpos (digits2_pos m) + e) - e = 0).
  { unfold fexp, emin, prec, emax. lia. }
  rewrite Hf. simpl. rewrite Hd.
  assert (Hf' : fexp prec emax (53 + e) - e = 0).
  { unfold fexp, emin, prec, emax. lia. }
  rewrite Hf'. simpl.
  destruct (Z.leb_spec e (emax - prec)) as [|Hgt]; [reflexivity|].
  unfold emax, prec in Hgt. lia.
Qed.

Lemma binary_round_shifted s k :
  Zpos (digits2_pos s) <= 53 -> 0 <= k ->
  binary_round prec emax false (shl s k) (- k) = canon s.
Proof.
  intros Hd Hk. unfold binary_round, canon.
  rewrite digits_shl by lia.
  set (d := Zpos (digits2_pos s)) in *.
  assert (Hf : fexp prec emax (d + k + - k) = d - 53).
  { unfold fexp, emin, prec, emax. lia. }
  rewrite Hf. unfold shl_align.
  destruct (d - 53 - - k) as [|n|n] eqn:Hn.
  - assert (k = 53 - d) by lia. subst k.
    rewrite round_aux_canonical; [f_equal; lia| |lia].
    rewrite digits_shl by lia. fold d. lia.
  - (* shift right by n *)
    unfold binary_round_aux, shr_fexp. simpl Zdigits2.
    rewrite digits_shl by lia. fold d.
    rewrite Hf. rewrite Hn. unfold shr. cbn [shr_record_of_loc].
    assert (shl s k = Pos.iter xO (shl s (53 - d)) n) as ->.
    { change (Pos.iter xO (shl s (53 - d)) n) with (shl (shl s (53 - d)) (Zpos n)).
      rewrite shl_shl by lia. f_equal. lia. }
    rewrite shr_zeros. cbn [shr_m loc_of_shr_record round_nearest_even].
    simpl Zdigits2. rewrite digits_shl by lia. fold d.
    assert (Hf' : fexp prec emax (d + (53 - d) + (- k + Zpos n)) - (- k + Zpos n) = 0).
    { unfold fexp, emin, prec, emax. lia. }
    rewrite Hf'. cbn [shr_m].
    destruct (Z.leb_spec (- k + Zpos n) (emax - prec)) as [|Hgt].
    + f_equal. lia.
    + unfold emax, prec in Hgt. lia.
  - (* shift left by n *)
    change (Pos.iter xO (shl s k) n) with (shl (shl s k) (Zpos n)).
    rewrite shl_shl by lia.
    rewrite round_aux_canonical.
    + f_equal. f_equal. lia.
    + rewrite digits_shl by lia. fold d. lia.
    + lia.
Qed.

Lemma of_Z_pos p : Zpos p < 2 ^ 53 -> of_Z (Zpos p) = canon p.
Proof.
  intros Hp. unfold of_Z, binary_normalize.
  change p with (shl p 0) at 1. change 0 with (- 0).
  apply binary_round_shifted; [by apply digits_le_53|lia].
Qed.

(** Adding two non-negative integers whose sum is below [2^53] is exact. *)
Lemma plus_of_Z a b :
  0 <= a -> 0 <= b -> a + b < 2 ^ 53 ->
  plus (of_Z a) (of_Z b) = of_Z (a + b).
Proof.
  intros Ha Hb Hab.
  destruct a as [|a|a]; [|clear Ha|lia].
  { destruct b as [|b|b]; [reflexivity| |lia].
    rewrite Z.add_0_l, of_Z_pos by lia. reflexivity. }
  destruct b as [|b|b]; [|clear Hb|lia].
  { rewrite Z.add_0_r, of_Z_pos by lia. reflexivity. }
  rewrite !of_Z_pos by lia. change (Zpos a + Zpos b) with (Zpos (a + b)).
  rewrite of_Z_pos by (rewrite Pos2Z.inj_add; lia).
  pose proof (digits_le_53 a ltac:(lia)) as Hda.
  pose proof (digits_le_53 b ltac:(lia)) as Hdb.
  pose proof (digits_le_53 (a + b) ltac:(lia)) as Hds.
  pose proof (digits_mono a (a + b) ltac:(lia)) as Hma.
  pose proof (digits_mono b (a + b) ltac:(lia)) as Hmb.
  unfold plus, canon at 1 2, SFadd.
  set (da := Zpos (digits2_pos a)) in *.
  set (db := Zpos (digits2_pos b)) in *.
  set (ez := Z.min (da - 53) (db - 53)).
  assert (Hx : fst (shl_align (shl a (53 - da)) (da - 53) ez) = shl a (- ez)).
  { unfold shl_align. destruct (ez - (da - 53)) as [|n|n] eqn:Hn; cbn [fst].
    - f_equal. lia.
    - lia.
    - change (Pos.iter xO (shl a (53 - da)) n) with (shl (shl a (53 - da)) (Zpos n)).
      rewrite shl_shl by lia. f_equal. lia. }
  assert (Hy : fst (shl_align (shl b (53 - db)) (db - 53) ez) = shl b (- ez)).
  { unfold shl_align. destruct (ez - (db - 53)) as [|n|n] eqn:Hn; cbn [fst].
    - f_equal. lia.
    - lia.
    - change (Pos.iter xO (shl b (53 - db)) n) with (shl (shl b (53 - db)) (Zpos n)).
      rewrite shl_shl by lia. f_equal. lia. }
  rewrite Hx, Hy. cbn [cond_Zopp].
  assert (Hsum : Zpos (shl a (- ez)) + Zpos (shl b (- ez)) = Zpos (shl (a + b) (- ez))).
  { rewrite !Zpos_shl by lia. rewrite Pos2Z.inj_add. lia. }
  rewrite Hsum. unfold binary_normalize.
  replace ez with (- - ez) at 2 by lia.
  apply binary_round_shifted; lia.
Qed.

Lemma of_Z_0 : of_Z 0 = S754_zero false.
Proof. reflexivity. Qed.

Lemma integer_of_Some (x : spec_float) (k : Z) :
  integer_of x = Some k → x = of_Z k ∧ 0 ≤ k.
Proof.
  destruct x as [[|]|[|]| |[|] m e]; simpl; try done.
  - by intros [= <-].
  - destruct (decide _) as [Heq|]; [|done]. intros [= <-]. split; [done|].
    apply Z.shiftl_nonneg. lia.
Qed.

(** ** Loops that complete normally *)

Lemma for_each_normal {A St : Type} (body : nat → A → St → completion St)
    (f : nat → A → St → St) :
  (∀ i x st, body i x st = Normal (f i x st)) →
  ∀ a i st, for_each body i a st = Normal (fold_indexed f i a st).
Proof.
  intros Hbody a. induction a as [|x rest IH]; intros i st; simpl.
  - done.
  - rewrite Hbody. simpl. apply IH.
Qed.

Lemma fold_indexed_app {A St : Type} (f : nat → A → St → St) a b i st :
  fold_indexed f i (a ++ b) st
  = fold_indexed f (i + length a) b (fold_indexed f i a st).
Proof.
  revert i st. induction a as [|x a IH]; intros i st; simpl.
  - by rewrite Nat.add_0_r.
  - rewrite IH. f_equal. lia.
Qed.

Lemma fold_indexed_ext {A St : Type} (f g : nat → A → St → St) a :
  ∀ i st,
    (∀ j x st, a !! j = Some x → f (i + j)%nat x st = g (i + j)%nat x st) →
    fold_indexed f i a st = fold_indexed g i a st.
Proof.
  induction a as [|x a IH]; intros i st Hfg; simpl; [done|].
  pose proof (Hfg 0%nat x st eq_refl) as Hx. rewrite Nat.add_0_r in Hx.
  rewrite Hx. apply IH. intros j y st' Hj.
  specialize (Hfg (S j) y st' Hj). by rewrite Nat.add_succ_r in Hfg.
Qed.

(** ** What the loops compute when nothing is thrown

    Each loop body is shown to complete normally with a state given by a
    pure function; the theorems on [enemyFighterPower] are derived from
    these equations. *)

Lemma capacity_at_normal enemySlotSizes shipIdx shipMst slotIdx :
  capacity_at enemySlotSizes shipIdx (Some shipMst) slotIdx
  = Normal (resolved_capacity (index (or_empty enemySlotSizes) shipIdx)
              shipMst slotIdx).
Proof.
  unfold capacity_at, resolved_capacity.
  by destruct (index (or_empty enemySlotSizes) shipIdx).
Qed.

Lemma set_gear_exception_normal exceptions shipId gearId v :
  set_gear_exception exceptions shipId gearId v
  = Normal (record_exception exceptions shipId gearId v).
Proof.
  unfold set_gear_exception, record_exception.
  rewrite lookup_insert_eq.
  destruct (exceptions !! pretty shipId) as [[|gears]|]; simpl;
    by rewrite insert_insert_eq.
Qed.

Lemma gear_body_normal enemySlotSizes shipIdx shipId shipMst slotIdx gearId st :
  gear_body KC3Master KC3GearManager enemySlotSizes shipIdx shipId
    (Some shipMst) slotIdx gearId st
  = Normal (apply_outcome shipId gearId
              (slot_outcome (index (or_empty enemySlotSizes) shipIdx)
                 shipMst slotIdx gearId) st).
Proof.
  unfold gear_body, slot_outcome, is_fighter, is_recon.
  destruct (slotitem KC3Master gearId) as [gearMst|]; simpl.
  - destruct (includes _ _); simpl.
    + rewrite capacity_at_normal; simpl.
      destruct (resolved_capacity _ _ _); simpl.
      * by destruct (0 <? _).
      * by rewrite set_gear_exception_normal.
    + destruct (strict_equal _ _); simpl; [|done].
      rewrite capacity_at_normal; simpl.
      destruct (resolved_capacity _ _ _); simpl; [done|].
      by rewrite set_gear_exception_normal.
  - by rewrite set_gear_exception_normal.
Qed.

Lemma ship_body_normal enemyShipSlots enemySlotSizes shipIdx shipId st :
  ship_body KC3Master KC3GearManager enemyShipSlots enemySlotSizes
    shipIdx shipId st
  = Normal (ship_step shipId (index (or_empty enemyShipSlots) shipIdx)
              (index (or_empty enemySlotSizes) shipIdx) st).
Proof.
  unfold ship_body, ship_step, ship_master, layout_of.
  destruct shipId as [shipId|]; [|done].
  destruct ((shipId =? 0) || (shipId <? 0)); [done|].
  destruct (if isAbyssalShip KC3Master shipId then _ else _)
    as [shipMst|]; simpl; [|done].
  destruct (index (or_empty enemyShipSlots) shipIdx) as [slots|]; simpl.
  - apply for_each_normal. intros. apply gear_body_normal.
  - destruct (kc3_slots shipMst) as [slots|]; [|done].
    apply for_each_normal. intros. apply gear_body_normal.
Qed.

Lemma enemyFighterPower_present ships enemyShipSlots enemySlotSizes :
  enemyFighterPower KC3Master KC3GearManager (Some ships)
    enemyShipSlots enemySlotSizes
  = Normal (result_array
              (fleet_step enemyShipSlots enemySlotSizes 0%nat ships initial)).
Proof.
  unfold enemyFighterPower, fleet_step.
  rewrite (for_each_normal _ _ (ship_body_normal enemyShipSlots enemySlotSizes)).
  done.
Qed.

Lemma row_at_reorder order ships enemyShipSlots enemySlotSizes :
  row_at (reorder order ships) (reorder order <$> enemyShipSlots)
    (reorder order <$> enemySlotSizes)
    <$> seq 0 (length (reorder order ships))
  = row_at ships enemyShipSlots enemySlotSizes <$> order.
Proof.
  assert (Hidx : ∀ A (a : option (list (option A))) k j,
    order !! k = Some j →
    index (or_empty (reorder order <$> a)) k = index (or_empty a) j).
  { intros A [a|] k j Hk; unfold index, reorder; simpl; [|done].
    by rewrite list_lookup_fmap, Hk. }
  apply list_eq. intros k.
  replace (length (reorder order ships)) with (length order)
    by (unfold reorder; by rewrite length_fmap).
  rewrite !list_lookup_fmap.
  destruct (order !! k) as [j|] eqn:Hk; simpl.
  - rewrite lookup_seq_lt by (by eapply lookup_lt_Some); simpl.
    unfold row_at. rewrite !(Hidx _ _ k j) by done.
    do 3 f_equal. unfold index, reorder.
    by rewrite list_lookup_fmap, Hk.
  - rewrite lookup_seq_ge; [done|]. by apply lookup_ge_None.
Qed.

Lemma apply_outcome_exceptions shipId gearId o st :
  exceptions (apply_outcome shipId gearId o st)
  = match o with
    | Fails v => record_exception (exceptions st) shipId gearId v
    | _ => exceptions st
    end.
Proof. by destruct o. Qed.

Lemma slots_step_exceptions sizes shipId shipMst shipSlots slotIdx st :
  exceptions (slots_step sizes shipId shipMst slotIdx shipSlots st)
  = record_all shipId (failures sizes shipMst slotIdx shipSlots) (exceptions st).
Proof.
  unfold slots_step, record_all. revert slotIdx st.
  induction shipSlots as [|gearId rest IH]; intros slotIdx st;
    cbn [fold_indexed failures]; [done|].
  rewrite IH, apply_outcome_exceptions. unfold slot_failure.
  by destruct (slot_outcome sizes shipMst slotIdx gearId).
Qed.

Lemma record_all_insert shipId fl exceptions :
  fl ≠ [] →
  record_all shipId fl exceptions
  = <[pretty shipId :=
        ShipGears (insert_all fl (gears_of (exceptions !! pretty shipId)))]>
      exceptions.
Proof.
  unfold record_all, insert_all. revert exceptions.
  induction fl as [|[gearId v] fl IH]; intros exceptions Hne; [done|].
  cbn [foldl fst snd]. destruct fl as [|p fl].
  - done.
  - rewrite IH by done. unfold record_exception.
    rewrite lookup_insert_eq. cbn [gears_of].
    by rewrite insert_insert_eq.
Qed.

Lemma record_all_other shipId fl exceptions k :
  k ≠ pretty shipId →
  record_all shipId fl exceptions !! k = exceptions !! k.
Proof.
  intros Hk. destruct fl as [|p fl]; [done|].
  rewrite record_all_insert by done. by rewrite lookup_insert_ne.
Qed.

Lemma elem_of_failures sizes shipMst shipSlots slotIdx gearId v :
  (gearId, v) ∈ failures sizes shipMst slotIdx shipSlots ↔
  ∃ j, shipSlots !! j = Some gearId
       ∧ slot_failure sizes shipMst (slotIdx + j) gearId = Some v.
Proof.
  revert slotIdx.
  induction shipSlots as [|g rest IH]; intros slotIdx; cbn [failures].
  - split; [by intros ?%elem_of_nil|by intros (j & ? & _)].
  - assert (Hrest : (gearId, v) ∈ failures sizes shipMst (S slotIdx) rest ↔
      ∃ j, (g :: rest) !! S j = Some gearId
           ∧ slot_failure sizes shipMst (slotIdx + S j) gearId = Some v).
    { rewrite IH. by setoid_rewrite Nat.add_succ_r. }
    destruct (slot_failure sizes shipMst slotIdx g) as [v0|] eqn:Hg.
    + rewrite elem_of_cons, Hrest. split.
      * intros [[= -> ->]|(j & ? & ?)]; [|by exists (S j)].
        exists 0%nat. by rewrite Nat.add_0_r.
      * intros ([|j] & Hj & Hv); [|right; by exists j].
        left. rewrite Nat.add_0_r in Hv. simpl in Hj. congruence.
    + rewrite Hrest. split.
      * intros (j & ? & ?). by exists (S j).
      * intros ([|j] & Hj & Hv); [|by exists j].
        rewrite Nat.add_0_r in Hv. simpl in Hj. congruence.
Qed.

(** The entry of a gear does not depend on the slot that fails. *)
Lemma slot_failure_functional sizes shipMst j j' gearId v v' :
  slot_failure sizes shipMst j gearId = Some v →
  slot_failure sizes shipMst j' gearId = Some v' →
  v = v'.
Proof.
  unfold slot_failure, slot_outcome.
  destruct (slotitem KC3Master gearId) as [gearMst|]; [|congruence].
  destruct (is_fighter gearMst).
  - destruct (resolved_capacity sizes shipMst j);
      [by destruct (0 <? _)|].
    destruct (resolved_capacity sizes shipMst j');
      [by destruct (0 <? _)|congruence].
  - destruct (is_recon gearMst); [|done].
    destruct (resolved_capacity sizes shipMst j); [done|].
    destruct (resolved_capacity sizes shipMst j'); [done|congruence].
Qed.

Lemma insert_all_lookup fl gears k v :
  (∀ g v1 v2, (g, v1) ∈ fl → (g, v2) ∈ fl → v1 = v2) →
  insert_all fl gears !! k = Some v ↔
  (∃ g, k = pretty g ∧ (g, v) ∈ fl)
  ∨ (gears !! k = Some v ∧ ∀ g v', (g, v') ∈ fl → k ≠ pretty g).
Proof.
  unfold insert_all. revert v.
  induction fl as [|[g0 v0] fl IH] using rev_ind; intros v Hfun.
  - simpl. split.
    + intros ?. right. split; [done|]. by intros ?? ?%elem_of_nil.
    + intros [(g & _ & ?%elem_of_nil)|[? _]]; done.
  - rewrite foldl_app. cbn [foldl fst snd].
    assert (Hl : ∀ p, p ∈ fl → p ∈ fl ++ [(g0, v0)]).
    { intros p ?. apply elem_of_app. by left. }
    assert (Hr : (g0, v0) ∈ fl ++ [(g0, v0)]).
    { apply elem_of_app. right. by apply list_elem_of_singleton. }
    assert (Hfun' : ∀ g v1 v2, (g, v1) ∈ fl → (g, v2) ∈ fl → v1 = v2).
    { intros g v1 v2 ??. apply (Hfun g); by apply Hl. }
    specialize (λ v, IH v Hfun').
    destruct (decide (k = pretty g0)) as [->|Hk].
    + rewrite lookup_insert_eq. split.
      * intros [= <-]. left. by exists g0.
      * intros [(g & Hg%(inj pretty) & Hin)|[_ Hno]].
        -- subst g. f_equal. by apply (Hfun g0).
        -- exfalso. by apply (Hno g0 v0).
    + rewrite lookup_insert_ne by done. rewrite IH. split.
      * intros [(g & ? & ?)|[? Hno]].
        -- left. exists g. split; [done|]. by apply Hl.
        -- right. split; [done|].
           intros g v' [?|Heq%list_elem_of_singleton]%elem_of_app.
           ++ by eapply Hno.
           ++ congruence.
      * intros [(g & -> & [?|Heq%list_elem_of_singleton]%elem_of_app)|[? Hno]].
        -- left. by exists g.
        -- congruence.
        -- right. split; [done|]. intros g v' ?. apply (Hno g v'). by apply Hl.
Qed.

Lemma slot_failure_unresolved sizes shipMst shipSlots gearId v :
  (∃ j, shipSlots !! j = Some gearId
        ∧ slot_failure sizes shipMst j gearId = Some v)
  ↔ gear_unresolved sizes shipMst shipSlots gearId v.
Proof.
  unfold slot_failure, slot_outcome. split.
  - intros (j & Hj & Hv).
    destruct (slotitem KC3Master gearId) as [gearMst|] eqn:Hmst.
    + destruct (is_fighter gearMst) eqn:Hf.
      * destruct (resolved_capacity sizes shipMst j) eqn:Hc;
          [by destruct (0 <? _)|].
        injection Hv as <-. by eapply missing_fighter_capacity.
      * destruct (is_recon gearMst) eqn:Hr; [|done].
        destruct (resolved_capacity sizes shipMst j) eqn:Hc; [done|].
        injection Hv as <-. by eapply missing_recon_capacity.
    + injection Hv as <-. by eapply missing_gear_master.
  - intros [j g Hj Hmst|j g gearMst Hj Hmst Hf Hc|j g gearMst Hj Hmst Hf Hr Hc];
      exists j; (split; [done|]); rewrite Hmst; [done|..].
    + by rewrite Hf, Hc.
    + by rewrite Hf, Hr, Hc.
Qed.

Lemma elem_of_failures_unresolved sizes shipMst shipSlots gearId v :
  (gearId, v) ∈ failures sizes shipMst 0%nat shipSlots
  ↔ gear_unresolved sizes shipMst shipSlots gearId v.
Proof. by rewrite elem_of_failures, <- slot_failure_unresolved. Qed.

Lemma failures_functional sizes shipMst shipSlots g v1 v2 :
  (g, v1) ∈ failures sizes shipMst 0%nat shipSlots →
  (g, v2) ∈ failures sizes shipMst 0%nat shipSlots →
  v1 = v2.
Proof.
  rewrite !elem_of_failures. intros (j1 & _ & H1) (j2 & _ & H2).
  by eapply slot_failure_functional.
Qed.

Lemma ship_entry_unresolved shipId slots sizes x :
  ship_entry shipId slots sizes = Some x
  ↔ ship_unresolved slots sizes shipId x.
Proof.
  unfold ship_entry.
  destruct (ship_master shipId) as [shipMst|] eqn:Hmst.
  2:{ split; [intros [= <-]; by constructor|].
      inversion 1; congruence. }
  destruct (layout_of slots shipMst) as [shipSlots|] eqn:Hlay.
  2:{ split; [intros [= <-]; by econstructor|].
      inversion 1; congruence. }
  set (fl := failures sizes shipMst 0%nat (filter (λ id, 0 < id) shipSlots)).
  assert (Hin : ∀ g v, (g, v) ∈ fl ↔
    gear_unresolved sizes shipMst (filter (λ id, 0 < id) shipSlots) g v)
    by (intros; apply elem_of_failures_unresolved).
  assert (Hfun : ∀ g v1 v2, (g, v1) ∈ fl → (g, v2) ∈ fl → v1 = v2)
    by (intros g v1 v2; apply failures_functional).
  clearbody fl.
  assert (Hlookup : ∀ k v, insert_all fl ∅ !! k = Some v ↔
    ∃ gearId, k = pretty gearId
      ∧ gear_unresolved sizes shipMst
          (filter (λ id, 0 < id) shipSlots) gearId v).
  { intros k v. rewrite insert_all_lookup by done.
    setoid_rewrite <- Hin. split.
    - intros [?|[Hempty _]]; [done|]. by rewrite lookup_empty in Hempty.
    - by left. }
  split.
  - intros Hx. destruct fl as [|[g v] fl']; [done|].
    injection Hx as <-.
    eapply missing_gear_data; [done..| |done].
    intros Hempty.
    assert (insert_all ((g, v) :: fl') ∅ !! pretty g = Some v) as Hg.
    { apply Hlookup. exists g. split; [done|]. apply Hin. by left. }
    change (insert_all ((g, v) :: fl') ∅ = ∅) in Hempty.
    by rewrite Hempty, lookup_empty in Hg.
  - inversion 1 as [| |shipMst' shipSlots' gears Hm Hl Hne Hgears]; [congruence..|].
    assert (shipMst' = shipMst) as -> by congruence.
    assert (shipSlots' = shipSlots) as -> by congruence.
    assert (gears = insert_all fl ∅) as ->.
    { apply map_eq. intros k. apply option_eq. intros v.
      by rewrite Hgears, Hlookup. }
    destruct fl as [|p fl']; done.
Qed.

Lemma ship_step_placeholder shipId slots sizes st :
  is_placeholder shipId = true → ship_step shipId slots sizes st = st.
Proof.
  unfold ship_step, is_placeholder. destruct shipId as [id|]; [|done].
  by intros ->.
Qed.

Lemma ship_step_other id slots sizes st k :
  k ≠ pretty id →
  exceptions (ship_step (Some id) slots sizes st) !! k = exceptions st !! k.
Proof.
  intros Hk. unfold ship_step.
  destruct ((id =? 0) || (id <? 0)); [done|].
  destruct (ship_master id) as [shipMst|]; simpl;
    [|by rewrite lookup_insert_ne].
  destruct (layout_of slots shipMst) as [shipSlots|]; simpl;
    [|by rewrite lookup_insert_ne].
  rewrite slots_step_exceptions. by apply record_all_other.
Qed.

Lemma ship_step_entry id slots sizes st :
  is_placeholder (Some id) = false →
  exceptions st !! pretty id = None →
  exceptions (ship_step (Some id) slots sizes st) !! pretty id
  = ship_entry id slots sizes.
Proof.
  unfold is_placeholder, ship_step, ship_entry. intros -> Hfresh.
  destruct (ship_master id) as [shipMst|]; simpl;
    [|by rewrite lookup_insert_eq].
  destruct (layout_of slots shipMst) as [shipSlots|]; simpl;
    [|by rewrite lookup_insert_eq].
  rewrite slots_step_exceptions.
  destruct (failures sizes shipMst 0%nat _) as [|p fl] eqn:Hfl; [done|].
  rewrite record_all_insert by done.
  by rewrite lookup_insert_eq, Hfresh.
Qed.

(** The exception map after the loop over the ships, when no valid ship ID
    stands at two indices and the map has no entry yet for any of them. *)
Lemma fleet_step_exceptions enemyShipSlots enemySlotSizes ships :
  ∀ shipIdx st,
    (∀ i j id, ships !! i = Some (Some id) → ships !! j = Some (Some id) →
       is_placeholder (Some id) = false → i = j) →
    (∀ j id, ships !! j = Some (Some id) → is_placeholder (Some id) = false →
       exceptions st !! pretty id = None) →
    ∀ k x,
      exceptions (fleet_step enemyShipSlots enemySlotSizes shipIdx ships st) !! k
      = Some x ↔
      (∃ j id, ships !! j = Some (Some id)
         ∧ is_placeholder (Some id) = false
         ∧ k = pretty id
         ∧ ship_entry id (index (or_empty enemyShipSlots) (shipIdx + j))
             (index (or_empty enemySlotSizes) (shipIdx + j)) = Some x)
      ∨ (exceptions st !! k = Some x
         ∧ ∀ j id, ships !! j = Some (Some id) →
             is_placeholder (Some id) = false → k ≠ pretty id).
Proof.
  unfold fleet_step.
  induction ships as [|s rest IH]; intros shipIdx st Hdist Hfresh k x;
    cbn [fold_indexed].
  - split.
    + intros ?. right. split; [done|]. intros j id Hj. by destruct j.
    + intros [(j & id & Hj & _)|[? _]]; [by destruct j|done].
  - set (st1 := ship_step s (index (or_empty enemyShipSlots) shipIdx)
                  (index (or_empty enemySlotSizes) shipIdx) st).
    assert (Hdist' : ∀ i j id, rest !! i = Some (Some id) →
      rest !! j = Some (Some id) → is_placeholder (Some id) = false → i = j).
    { intros i j id Hi Hj Hv.
      specialize (Hdist (S i) (S j) id Hi Hj Hv). lia. }
    destruct (is_placeholder s) eqn:Hs.
    + assert (st1 = st) as Hst1 by (by apply ship_step_placeholder).
      rewrite Hst1, IH; [|done|by intros j id; apply (Hfresh (S j))].
      split.
      * intros [(j & id & Hj & Hv & Hk & He)|[Hx Hno]].
        -- left. exists (S j), id. by rewrite Nat.add_succ_r.
        -- right. split; [done|]. intros [|j] id Hj Hv; [|by eapply Hno].
           simpl in Hj. congruence.
      * intros [(j & id & Hj & Hv & Hk & He)|[Hx Hno]].
        -- destruct j as [|j]; [simpl in Hj; congruence|].
           left. exists j, id. by rewrite Nat.add_succ_r in He.
        -- right. split; [done|]. intros j id. apply (Hno (S j)).
    + destruct s as [id0|]; [|done].
      assert (Hrest : ∀ j id, rest !! j = Some (Some id) →
        is_placeholder (Some id) = false → id ≠ id0).
      { intros j id Hj Hv ->.
        by specialize (Hdist 0%nat (S j) id0 eq_refl Hj Hv). }
      assert (Hown : exceptions st1 !! pretty id0
        = ship_entry id0 (index (or_empty enemyShipSlots) shipIdx)
            (index (or_empty enemySlotSizes) shipIdx)).
      { apply ship_step_entry; [done|]. by apply (Hfresh 0%nat). }
      rewrite IH; [|done|].
      2:{ intros j id Hj Hv. unfold st1.
          rewrite ship_step_other; [by apply (Hfresh (S j))|].
          intros ?%(inj pretty). by eapply Hrest. }
      split.
      * intros [(j & id & Hj & Hv & Hk & He)|[Hx Hno]].
        -- left. exists (S j), id. by rewrite Nat.add_succ_r.
        -- destruct (decide (k = pretty id0)) as [->|Hk].
           ++ left. exists 0%nat, id0. rewrite Nat.add_0_r.
              by rewrite <- Hown.
           ++ right. unfold st1 in Hx.
              rewrite ship_step_other in Hx by done.
              split; [done|]. intros [|j] id Hj Hv; [|by eapply Hno].
              simpl in Hj. congruence.
      * intros [(j & id & Hj & Hv & Hk & He)|[Hx Hno]].
        -- destruct j as [|j].
           ++ simpl in Hj. injection Hj as ->. subst k.
              rewrite Nat.add_0_r in He. right. split; [congruence|].
              intros j id' Hj Hv' ?%(inj pretty). by eapply Hrest.
           ++ left. exists j, id. by rewrite Nat.add_succ_r in He.
        -- right. split.
           ++ unfold st1. rewrite ship_step_other; [done|].
              by apply (Hno 0%nat).
           ++ intros j id. apply (Hno (S j)).
Qed.

Lemma fleet_step_placeholders enemyShipSlots enemySlotSizes ships :
  Forall (λ id, is_placeholder id = true) ships →
  ∀ shipIdx st,
    fleet_step enemyShipSlots enemySlotSizes shipIdx ships st = st.
Proof.
  unfold fleet_step.
  induction 1 as [|id rest Hid _ IH]; intros shipIdx st; cbn [fold_indexed].
  - done.
  - by rewrite ship_step_placeholder, IH.
Qed.

(** ** The totals follow the slots in order *)

#[local] Arguments of_Z : simpl never.
#[local] Arguments plus : simpl never.
#[local] Arguments times : simpl never.
#[local] Arguments Math_sqrt : simpl never.
#[local] Arguments Math_floor : simpl never.

Ltac tuple_eq :=
  repeat match goal with |- (_, _) = (_, _) => f_equal end; try done; try lia.

Lemma apply_outcome_totals shipId gearId o st :
  totals_of (apply_outcome shipId gearId o st) = add_outcome (totals_of st) o.
Proof. by destruct o. Qed.

Lemma slots_step_totals sizes shipId shipMst shipSlots :
  ∀ slotIdx st,
    totals_of (slots_step sizes shipId shipMst slotIdx shipSlots st)
    = foldl add_outcome (totals_of st)
        (slots_outcomes sizes shipMst slotIdx shipSlots).
Proof.
  unfold slots_step.
  induction shipSlots as [|gearId rest IH]; intros slotIdx st;
    cbn [fold_indexed slots_outcomes foldl]; [done|].
  by rewrite IH, apply_outcome_totals.
Qed.

Lemma ship_step_totals shipId slots sizes st :
  totals_of (ship_step shipId slots sizes st)
  = foldl add_outcome (totals_of st) (row_outcomes (shipId, slots, sizes)).
Proof.
  unfold ship_step, row_outcomes.
  destruct shipId as [shipId|]; [|done].
  destruct ((shipId =? 0) || (shipId <? 0)); [done|].
  destruct (ship_master shipId) as [shipMst|]; [|done].
  destruct (layout_of slots shipMst) as [shipSlots|]; [|done].
  apply slots_step_totals.
Qed.

Lemma fleet_step_totals enemyShipSlots enemySlotSizes ships :
  ∀ prefix st,
    totals_of (fleet_step enemyShipSlots enemySlotSizes (length prefix) ships st)
    = foldl add_outcome (totals_of st)
        (concat (row_outcomes <$>
           (row_at (prefix ++ ships) enemyShipSlots enemySlotSizes <$>
              seq (length prefix) (length ships)))).
Proof.
  unfold fleet_step.
  induction ships as [|shipId rest IH]; intros prefix st;
    cbn [fold_indexed length seq fmap list_fmap concat foldl]; [done|].
  specialize (IH (prefix ++ [shipId])).
  rewrite length_app, Nat.add_1_r in IH.
  rewrite IH, ship_step_totals, foldl_app, <- app_assoc.
  cbn [app]. do 3 f_equal. unfold row_at, index.
  by rewrite list_lookup_middle.
Qed.

Lemma fleet_totals enemyShipSlots enemySlotSizes ships :
  totals_of (fleet_step enemyShipSlots enemySlotSizes 0%nat ships initial)
  = foldl add_outcome (totals_of initial)
      (fleet_outcomes ships enemyShipSlots enemySlotSizes).
Proof.
  exact (fleet_step_totals enemyShipSlots enemySlotSizes ships [] initial).
Qed.

(** ** Sums that stay below [2^53] are exact *)

Lemma exact_outcome_nonneg o p c n r :
  exact_outcome o = Some (p, c, n, r) → 0 ≤ p ∧ 0 ≤ c ∧ 0 ≤ n ∧ 0 ≤ r.
Proof.
  destruct o as [v|capacity x|capacity|capacity|]; simpl;
    try (destruct (Z.leb_spec 0 capacity); [|done]);
    try (intros [= <- <- <- <-]; lia).
  destruct (integer_of x) as [k|] eqn:Hk; simpl; [|done].
  apply integer_of_Some in Hk as [_ ?]. intros [= <- <- <- <-]. lia.
Qed.

Lemma exact_sums_nonneg os :
  ∀ p c n r,
    exact_sums os = Some (p, c, n, r) → 0 ≤ p ∧ 0 ≤ c ∧ 0 ≤ n ∧ 0 ≤ r.
Proof.
  induction os as [|o rest IH]; intros p c n r; simpl.
  - intros [= <- <- <- <-]. lia.
  - destruct (exact_outcome o) as [[[[p1 c1] n1] r1]|] eqn:Ho; simpl; [|done].
    destruct (exact_sums rest) as [[[[p2 c2] n2] r2]|]; simpl; [|done].
    apply exact_outcome_nonneg in Ho. specialize (IH _ _ _ _ eq_refl).
    intros [= <- <- <- <-]. lia.
Qed.

Lemma add_outcome_exact (b : bool) o p c n r p' c' n' r' :
  exact_outcome o = Some (p', c', n', r') →
  0 ≤ p → 0 ≤ c → 0 ≤ n → 0 ≤ r →
  (b = false → p = 0) →
  p + p' < 2 ^ 53 → c + c' < 2 ^ 53 → n + n' < 2 ^ 53 → r + r' < 2 ^ 53 →
  add_outcome (totals_of_counts b (p, c, n, r)) o
  = totals_of_counts (b || is_powered o) (p + p', c + c', n + n', r + r').
Proof.
  intros Ho Hp Hc Hn Hr Hb ????.
  pose proof (exact_outcome_nonneg _ _ _ _ _ Ho) as (? & ? & ? & ?).
  destruct o as [v|capacity x|capacity|capacity|]; simpl in Ho |- *;
    try (destruct (Z.leb_spec 0 capacity); [|done]).
  - injection Ho as <- <- <- <-. rewrite orb_false_r, !Z.add_0_r. done.
  - destruct (integer_of x) as [k|] eqn:Hk; simpl in Ho; [|done].
    apply integer_of_Some in Hk as [-> ?]. injection Ho as <- <- <- <-.
    rewrite orb_true_r, !Z.add_0_r. unfold power_add_assign.
    rewrite (plus_of_Z c) by lia.
    destruct b; simpl.
    + by rewrite plus_of_Z by lia.
    + rewrite Hb by done. by rewrite plus_of_Z by lia.
  - injection Ho as <- <- <- <-.
    rewrite orb_false_r, !Z.add_0_r. by rewrite plus_of_Z by lia.
  - injection Ho as <- <- <- <-.
    rewrite orb_false_r, !Z.add_0_r. by rewrite plus_of_Z by lia.
  - injection Ho as <- <- <- <-. rewrite orb_false_r, !Z.add_0_r. done.
Qed.

Lemma exact_outcome_unpowered o p c n r :
  exact_outcome o = Some (p, c, n, r) → is_powered o = false → p = 0.
Proof.
  destruct o as [v|capacity x|capacity|capacity|]; simpl; try done;
    try (destruct (0 <=? capacity); [|done]); by intros [= <- <- <- <-].
Qed.

Lemma foldl_add_outcome_exact os :
  ∀ (b : bool) p c n r p' c' n' r',
    exact_sums os = Some (p', c', n', r') →
    0 ≤ p → 0 ≤ c → 0 ≤ n → 0 ≤ r →
    (b = false → p = 0) →
    p + p' < 2 ^ 53 → c + c' < 2 ^ 53 → n + n' < 2 ^ 53 → r + r' < 2 ^ 53 →
    foldl add_outcome (totals_of_counts b (p, c, n, r)) os
    = totals_of_counts (b || existsb is_powered os)
        (p + p', c + c', n + n', r + r').
Proof.
  induction os as [|o rest IH]; intros b p c n r p' c' n' r' Hsum;
    cbn [foldl existsb exact_sums] in Hsum |- *.
  - injection Hsum as <- <- <- <-. intros. by rewrite orb_false_r, !Z.add_0_r.
  - destruct (exact_outcome o) as [[[[p1 c1] n1] r1]|] eqn:Ho;
      simpl in Hsum; [|done].
    destruct (exact_sums rest) as [[[[p2 c2] n2] r2]|] eqn:Hrest;
      simpl in Hsum; [|done].
    injection Hsum as <- <- <- <-. intros Hp Hc Hn Hr Hb ????.
    pose proof (exact_outcome_nonneg _ _ _ _ _ Ho) as (? & ? & ? & ?).
    pose proof (exact_sums_nonneg _ _ _ _ _ Hrest) as (? & ? & ? & ?).
    rewrite (add_outcome_exact b o p c n r p1 c1 n1 r1) by (done || lia).
    rewrite (IH (b || is_powered o) _ _ _ _ p2 c2 n2 r2); try done; try lia.
    + rewrite orb_assoc. f_equal. tuple_eq.
    + intros [-> Hno]%orb_false_iff.
      rewrite (exact_outcome_unpowered _ _ _ _ _ Ho Hno), Hb by done. lia.
Qed.

Lemma exact_sums_permutation os os' :
  os ≡ₚ os' → exact_sums os = exact_sums os'.
Proof.
  induction 1 as [|o l l' _ IH|o1 o2 l|l1 l2 l3 _ IH1 _ IH2]; simpl.
  - done.
  - by rewrite IH.
  - destruct (exact_outcome o1) as [[[[p1 c1] n1] r1]|],
      (exact_outcome o2) as [[[[p2 c2] n2] r2]|],
      (exact_sums l) as [[[[p3 c3] n3] r3]|]; simpl; try done.
    f_equal. tuple_eq.
  - congruence.
Qed.

Lemma existsb_permutation {A} (f : A → bool) (l l' : list A) :
  l ≡ₚ l' → existsb f l = existsb f l'.
Proof.
  induction 1 as [|x l l' _ IH|x y l|l1 l2 l3 _ IH1 _ IH2]; simpl.
  - done.
  - by rewrite IH.
  - by destruct (f x), (f y).
  - congruence.
Qed.

Lemma concat_permutation {A} (l l' : list (list A)) :
  l ≡ₚ l' → concat l ≡ₚ concat l'.
Proof.
  induction 1 as [|x l l' _ IH|x y l|l1 l2 l3 _ IH1 _ IH2]; simpl.
  - done.
  - by rewrite IH.
  - apply Permutation_app_swap_app.
  - by etrans.
Qed.

(** With exact sums below [2^53], the totals of the run are the doubles of
    those sums. *)
Lemma fleet_totals_exact enemyShipSlots enemySlotSizes ships p c n r :
  exact_sums (fleet_outcomes ships enemyShipSlots enemySlotSizes)
  = Some (p, c, n, r) →
  p < 2 ^ 53 → c < 2 ^ 53 → n < 2 ^ 53 → r < 2 ^ 53 →
  totals_of (fleet_step enemyShipSlots enemySlotSizes 0%nat ships initial)
  = totals_of_counts
      (existsb is_powered (fleet_outcomes ships enemyShipSlots enemySlotSizes))
      (p, c, n, r).
Proof.
  intros Hsum ????. rewrite fleet_totals.
  change (totals_of initial) with (totals_of_counts false (0, 0, 0, 0)).
  by rewrite (foldl_add_outcome_exact _ false 0 0 0 0 p c n r).
Qed.

(** ** The last slot of the last ship *)

Lemma fleet_step_last_gear ships overrides enemySlotSizes shipId shipMst
    layout gearId :
  length overrides = length ships →
  is_placeholder (Some shipId) = false →
  ship_master shipId = Some shipMst →
  0 < gearId →
  fleet_step (Some (overrides ++ [Some (layout ++ [gearId])])) enemySlotSizes
    0%nat (ships ++ [Some shipId]) initial
  = apply_outcome shipId gearId
      (slot_outcome (index (or_empty enemySlotSizes) (length ships)) shipMst
         (length (filter (λ id, 0 < id) layout)) gearId)
      (fleet_step (Some (overrides ++ [Some layout])) enemySlotSizes
         0%nat (ships ++ [Some shipId]) initial).
Proof.
  intros Hlen Hvalid Hmst Hgear. unfold fleet_step.
  rewrite !fold_indexed_app. cbn [fold_indexed Nat.add].
  assert (Hprefix :
    fold_indexed (λ shipIdx id,
      ship_step id
        (index (or_empty (Some (overrides ++ [Some (layout ++ [gearId])]))) shipIdx)
        (index (or_empty enemySlotSizes) shipIdx)) 0 ships initial
    = fold_indexed (λ shipIdx id,
      ship_step id
        (index (or_empty (Some (overrides ++ [Some layout]))) shipIdx)
        (index (or_empty enemySlotSizes) shipIdx)) 0 ships initial).
  { apply fold_indexed_ext. intros j id st Hj. simpl.
    apply lookup_lt_Some in Hj. unfold index.
    by rewrite !lookup_app_l by lia. }
  rewrite Hprefix.
  set (st := fold_indexed _ 0%nat ships initial).
  assert (Hlast : ∀ l : list Z,
    index (or_empty (Some (overrides ++ [Some l]))) (length ships) = Some l).
  { intros l. unfold index. simpl. rewrite <- Hlen.
    by rewrite list_lookup_middle. }
  rewrite !Hlast. unfold ship_step, layout_of.
  unfold is_placeholder in Hvalid. rewrite Hvalid, Hmst.
  rewrite filter_app. unfold slots_step. rewrite fold_indexed_app.
  assert (filter (λ id, 0 < id) [gearId] = [gearId]) as ->.
  { rewrite filter_cons_True by done. done. }
  done.
Qed.

Lemma result_array_inj st p c n r e :
  Normal (result_array st)
  = Normal [VPower p; VNumber c; VNumber n; VNumber r; VExceptions e] →
  st = Locals p c n r e.
Proof. destruct st. unfold result_array. simpl. by intros [= -> -> -> -> ->]. Qed.

Lemma enemyFighterPower_last_gear ships overrides enemySlotSizes shipId shipMst
    layout gearId p c n r e :
  length overrides = length ships →
  is_placeholder (Some shipId) = false →
  ship_master shipId = Some shipMst →
  0 < gearId →
  enemyFighterPower KC3Master KC3GearManager (Some (ships ++ [Some shipId]))
    (Some (overrides ++ [Some layout])) enemySlotSizes
  = Normal [VPower p; VNumber c; VNumber n; VNumber r; VExceptions e] →
  enemyFighterPower KC3Master KC3GearManager (Some (ships ++ [Some shipId]))
    (Some (overrides ++ [Some (layout ++ [gearId])])) enemySlotSizes
  = Normal (result_array
      (apply_outcome shipId gearId
         (slot_outcome (index (or_empty enemySlotSizes) (length ships)) shipMst
            (length (filter (λ id, 0 < id) layout)) gearId)
         (Locals p c n r e))).
Proof.
  intros Hlen Hvalid Hmst Hgear. rewrite !enemyFighterPower_present.
  intros Hbefore%result_array_inj.
  by rewrite (fleet_step_last_gear _ _ _ _ shipMst), Hbefore.
Qed.

(** ** The properties of [enemyFighterPower] *)

(** C1 (as the code has it): for a non-empty fleet made only of placeholder
    IDs (falsy or negative), the result is the 5-element array whose first
    element is still the boolean [false] that [totalPower] starts with, whose
    three capacity totals are 0 and whose exception map is empty. *)
Theorem placeholders_only ships enemyShipSlots enemySlotSizes :
  ships ≠ [] →
  Forall (λ id, is_placeholder id = true) ships →
  enemyFighterPower KC3Master KC3GearManager (Some ships)
    enemyShipSlots enemySlotSizes
  = Normal [VPower PFalse; VNumber (of_Z 0); VNumber (of_Z 0);
            VNumber (of_Z 0); VExceptions ∅].
Proof.
  intros _ Hall.
  by rewrite enemyFighterPower_present, fleet_step_placeholders.
Qed.

(** C2 (as the code has it): an absent fleet gives the short 3-element
    result [(false, 0, {ship: null})]; an empty array is not absent and gives
    the 5-element result [(false, 0, 0, 0, {})]. *)
Theorem absent_or_empty_fleet enemyShipSlots enemySlotSizes :
  enemyFighterPower KC3Master KC3GearManager None enemyShipSlots enemySlotSizes
  = Normal [VPower PFalse; VNumber (of_Z 0);
            VExceptions {["ship" := ShipNull]}]
  ∧ enemyFighterPower KC3Master KC3GearManager (Some [])
      enemyShipSlots enemySlotSizes
    = Normal [VPower PFalse; VNumber (of_Z 0); VNumber (of_Z 0);
              VNumber (of_Z 0); VExceptions ∅].
Proof.
  split.
  - unfold enemyFighterPower; simpl. by rewrite insert_empty.
  - by rewrite enemyFighterPower_present.
Qed.





(** C8 (as the code has it): the totals are sums of doubles, and such a sum
    depends on the order once it rounds.  When every capacity that the
    fleet's slots add is an integer that is not negative, every power term
    is the double of such an integer, and the exact sum behind each of the
    four totals is below [2^53], no addition rounds: reordering the ships of
    a present fleet, with the entries of the two override arrays reordered
    alike, leaves [totalPower], [totalCapacity], [noAirPowerCapacity] and
    [reconCapacity] unchanged. *)
Theorem totals_invariant_under_reordering ships enemyShipSlots enemySlotSizes
    order power capacity noAirPower recon :
  order ≡ₚ seq 0 (length ships) →
  exact_sums (fleet_outcomes ships enemyShipSlots enemySlotSizes)
  = Some (power, capacity, noAirPower, recon) →
  power < 2 ^ 53 → capacity < 2 ^ 53 →
  noAirPower < 2 ^ 53 → recon < 2 ^ 53 →
  ∃ p c n r e e',
    enemyFighterPower KC3Master KC3GearManager (Some (reorder order ships))
      (reorder order <$> enemyShipSlots) (reorder order <$> enemySlotSizes)
    = Normal [VPower p; VNumber c; VNumber n; VNumber r; VExceptions e']
    ∧ enemyFighterPower KC3Master KC3GearManager (Some ships)
        enemyShipSlots enemySlotSizes
      = Normal [VPower p; VNumber c; VNumber n; VNumber r; VExceptions e].
Proof.
  intros Horder Hsum ????. rewrite !enemyFighterPower_present.
  set (st' := fleet_step _ _ _ (reorder order ships) _).
  set (st := fleet_step _ _ _ ships _).
  assert (Hperm :
    fleet_outcomes (reorder order ships) (reorder order <$> enemyShipSlots)
      (reorder order <$> enemySlotSizes)
    ≡ₚ fleet_outcomes ships enemyShipSlots enemySlotSizes).
  { unfold fleet_outcomes. rewrite row_at_reorder.
    apply concat_permutation. by do 2 apply fmap_Permutation. }
  assert (Htotals : totals_of st' = totals_of st).
  { unfold st', st.
    rewrite (fleet_totals_exact _ _ ships power capacity noAirPower recon)
      by done.
    rewrite (fleet_totals_exact _ _ (reorder order ships)
               power capacity noAirPower recon);
      [|by rewrite (exact_sums_permutation _ _ Hperm)|done..].
    by rewrite (existsb_permutation _ _ _ Hperm). }
  unfold totals_of in Htotals. injection Htotals as Hp Hc Hn Hr.
  exists (totalPower st), (totalCapacity st), (noAirPowerCapacity st),
    (reconCapacity st), (exceptions st), (exceptions st').
  unfold result_array. by rewrite Hp, Hc, Hn, Hr.
Qed.



(** ** Further properties of [enemyFighterPower] *)

Lemma ship_step_key id slots sizes st k :
  is_placeholder (Some id) = false →
  is_Some (exceptions (ship_step (Some id) slots sizes st) !! k) ↔
  (k = pretty id ∧ is_Some (ship_entry id slots sizes))
  ∨ is_Some (exceptions st !! k).
Proof.
  intros Hvalid. destruct (decide (k = pretty id)) as [->|Hk].
  2:{ rewrite ship_step_other by done. split; [by right|].
      by intros [[? _]|?]. }
  unfold is_placeholder in Hvalid. unfold ship_step, ship_entry.
  rewrite Hvalid.
  destruct (ship_master id) as [shipMst|]; simpl.
  2:{ rewrite lookup_insert_eq. split; [by left|by eexists]. }
  destruct (layout_of slots shipMst) as [shipSlots|]; simpl.
  2:{ rewrite lookup_insert_eq. split; [by left|by eexists]. }
  rewrite slots_step_exceptions.
  destruct (failures sizes shipMst 0%nat _) as [|p fl] eqn:Hfl.
  - simpl. split; [by right|]. intros [[_ [? ?]]|?]; done.
  - rewrite record_all_insert by done. rewrite lookup_insert_eq.
    split; [left; split; [done|by eexists]|by eexists].
Qed.

Lemma fleet_step_keys enemyShipSlots enemySlotSizes ships :
  ∀ shipIdx st k,
    is_Some (exceptions
               (fleet_step enemyShipSlots enemySlotSizes shipIdx ships st) !! k)
    ↔ (∃ j id, ships !! j = Some (Some id)
         ∧ is_placeholder (Some id) = false
         ∧ k = pretty id
         ∧ is_Some (ship_entry id
                      (index (or_empty enemyShipSlots) (shipIdx + j))
                      (index (or_empty enemySlotSizes) (shipIdx + j))))
      ∨ is_Some (exceptions st !! k).
Proof.
  unfold fleet_step.
  induction ships as [|s rest IH]; intros shipIdx st k; cbn [fold_indexed].
  - split; [by right|]. intros [(j & id & Hj & _)|?]; [by destruct j|done].
  - rewrite IH. destruct (is_placeholder s) eqn:Hs.
    + rewrite ship_step_placeholder by done. split.
      * intros [(j & id & Hj & Hv & Hk & He)|?]; [|by right].
        left. exists (S j), id. by rewrite Nat.add_succ_r.
      * intros [(j & id & Hj & Hv & Hk & He)|?]; [|by right].
        destruct j as [|j]; [simpl in Hj; congruence|].
        left. exists j, id. by rewrite Nat.add_succ_r in He.
    + destruct s as [id0|]; [|done]. rewrite ship_step_key by done. split.
      * intros [(j & id & Hj & Hv & Hk & He)|[[-> He]|?]].
        -- left. exists (S j), id. by rewrite Nat.add_succ_r.
        -- left. exists 0%nat, id0. by rewrite Nat.add_0_r.
        -- by right.
      * intros [(j & id & Hj & Hv & Hk & He)|?]; [|by right; right].
        destruct j as [|j].
        -- simpl in Hj. injection Hj as ->. rewrite Nat.add_0_r in He.
           right. by left.
        -- left. exists j, id. by rewrite Nat.add_succ_r in He.
Qed.


Lemma ship_step_null id slots sizes st :
  is_placeholder (Some id) = false →
  (exceptions st !! pretty id = Some ShipNull → ship_master id = None) →
  exceptions (ship_step (Some id) slots sizes st) !! pretty id = Some ShipNull
  ↔ ship_master id = None.
Proof.
  intros Hvalid Hinv. unfold is_placeholder in Hvalid. unfold ship_step.
  rewrite Hvalid.
  destruct (ship_master id) as [shipMst|] eqn:Hmst; simpl.
  2:{ by rewrite lookup_insert_eq. }
  assert (exceptions st !! pretty id ≠ Some ShipNull) as Hne
    by (intros ?; by specialize (Hinv ltac:(done))).
  destruct (layout_of slots shipMst) as [shipSlots|]; simpl.
  2:{ by rewrite lookup_insert_eq. }
  rewrite slots_step_exceptions.
  destruct (failures sizes shipMst 0%nat _) as [|p fl] eqn:Hfl; [done|].
  rewrite record_all_insert by done. by rewrite lookup_insert_eq.
Qed.

Lemma fleet_step_null enemyShipSlots enemySlotSizes ships :
  ∀ shipIdx st,
    (∀ id, exceptions st !! pretty id = Some ShipNull → ship_master id = None) →
    ∀ k,
      exceptions (fleet_step enemyShipSlots enemySlotSizes shipIdx ships st) !! k
      = Some ShipNull
      ↔ (∃ j id, ships !! j = Some (Some id)
           ∧ is_placeholder (Some id) = false
           ∧ k = pretty id ∧ ship_master id = None)
        ∨ exceptions st !! k = Some ShipNull.
Proof.
  unfold fleet_step.
  induction ships as [|s rest IH]; intros shipIdx st Hinv k;
    cbn [fold_indexed].
  - split; [by right|]. intros [(j & id & Hj & _)|?]; [by destruct j|done].
  - destruct (is_placeholder s) eqn:Hs.
    + rewrite ship_step_placeholder by done. rewrite IH by done. split.
      * intros [(j & id & Hj & ?)|?]; [|by right]. left. by exists (S j), id.
      * intros [(j & id & Hj & Hv & ?)|?]; [|by right].
        destruct j as [|j]; [simpl in Hj; congruence|]. left. by exists j, id.
    + destruct s as [id0|]; [|done].
      set (st1 := ship_step (Some id0) _ _ st).
      assert (Hown : exceptions st1 !! pretty id0 = Some ShipNull
                     ↔ ship_master id0 = None)
        by (apply ship_step_null; auto).
      assert (Hinv1 : ∀ id, exceptions st1 !! pretty id = Some ShipNull →
                        ship_master id = None).
      { intros id. destruct (decide (id = id0)) as [->|Hid]; [apply Hown|].
        unfold st1. rewrite ship_step_other; [apply Hinv|].
        by intros ?%(inj pretty). }
      rewrite IH by done. split.
      * intros [(j & id & Hj & ?)|Hk]; [left; by exists (S j), id|].
        destruct (decide (k = pretty id0)) as [->|Hne].
        -- left. exists 0%nat, id0. repeat split; try done. by apply Hown.
        -- right. unfold st1 in Hk. by rewrite ship_step_other in Hk.
      * intros [(j & id & Hj & Hv & Hk & Hm)|Hk].
        -- destruct j as [|j]; [|left; by exists j, id].
           simpl in Hj. injection Hj as ->. subst k. right. by apply Hown.
        -- right. destruct (decide (k = pretty id0)) as [->|Hne].
           ++ apply Hown. by apply Hinv.
           ++ unfold st1. by rewrite ship_step_other.
Qed.

(** For every present fleet, the value [null] stands in the exception map
    exactly under the IDs of the valid ships without master data. *)
Theorem null_entries ships enemyShipSlots enemySlotSizes :
  ∃ p c n r e,
    enemyFighterPower KC3Master KC3GearManager (Some ships)
      enemyShipSlots enemySlotSizes
    = Normal [VPower p; VNumber c; VNumber n; VNumber r; VExceptions e]
    ∧ ∀ k,
        e !! k = Some ShipNull ↔
        ∃ i id, ships !! i = Some (Some id)
          ∧ is_placeholder (Some id) = false
          ∧ k = pretty id
          ∧ ship_master id = None.
Proof.
  rewrite enemyFighterPower_present. do 5 eexists. split; [done|].
  intros k. rewrite fleet_step_null by done. simpl.
  rewrite lookup_empty. split; [by intros [?|?]|by left].
Qed.

(** Placeholder IDs at the end of the fleet change nothing of the result,
    the exception map included. *)
Theorem trailing_placeholders_ignored ships placeholders
    enemyShipSlots enemySlotSizes :
  Forall (λ id, is_placeholder id = true) placeholders →
  enemyFighterPower KC3Master KC3GearManager (Some (ships ++ placeholders))
    enemyShipSlots enemySlotSizes
  = enemyFighterPower KC3Master KC3GearManager (Some ships)
      enemyShipSlots enemySlotSizes.
Proof.
  intros Hall. rewrite !enemyFighterPower_present. f_equal. f_equal.
  unfold fleet_step. rewrite fold_indexed_app.
  by apply fleet_step_placeholders.
Qed.

(** The override arrays are read at the indices of the fleet only: two
    pairs of arrays that agree there give the same result.  So an absent
    array, an empty one and one filled with [undefined] are the same, and
    entries beyond the length of the fleet are ignored. *)
Theorem overrides_read_at_fleet_indices ships slots slots' sizes sizes' :
  (∀ i, (i < length ships)%nat →
     index (or_empty slots) i = index (or_empty slots') i
     ∧ index (or_empty sizes) i = index (or_empty sizes') i) →
  enemyFighterPower KC3Master KC3GearManager (Some ships) slots sizes
  = enemyFighterPower KC3Master KC3GearManager (Some ships) slots' sizes'.
Proof.
  intros Hagree. rewrite !enemyFighterPower_present. f_equal. f_equal.
  unfold fleet_step. apply fold_indexed_ext. intros j id st Hj. simpl.
  destruct (Hagree j) as [-> ->]; [by eapply lookup_lt_Some|done].
Qed.

(** Dropping the placeholders (the IDs that are not positive) from the
    override layouts before the call changes nothing of the result. *)
Theorem prefiltered_layouts ships enemyShipSlots enemySlotSizes :
  enemyFighterPower KC3Master KC3GearManager (Some ships)
    (drop_placeholders enemyShipSlots) enemySlotSizes
  = enemyFighterPower KC3Master KC3GearManager (Some ships)
      enemyShipSlots enemySlotSizes.
Proof.
  rewrite !enemyFighterPower_present. f_equal. f_equal.
  unfold fleet_step. apply fold_indexed_ext. intros j id st _. simpl.
  assert (Hidx :
    index (or_empty (drop_placeholders enemyShipSlots)) j
    = filter (λ id : Z, 0 < id) <$> index (or_empty enemyShipSlots) j).
  { unfold drop_placeholders.
    destruct enemyShipSlots as [a|]; unfold index; simpl; [|done].
    rewrite list_lookup_fmap. by destruct (a !! j) as [[l|]|]. }
  rewrite Hidx. unfold ship_step, layout_of.
  destruct id as [id|]; [|done].
  destruct ((id =? 0) || (id <? 0)); [done|].
  destruct (ship_master id) as [shipMst|]; [|done].
  destruct (index (or_empty enemyShipSlots) j) as [l|]; simpl; [|done].
  f_equal. rewrite list_filter_filter. apply list_filter_iff. tauto.
Qed.

Lemma slot_outcome_powered sizes shipMst slotIdx gearId :
  (∃ c x, slot_outcome sizes shipMst slotIdx gearId = Powered c x) ↔
  ∃ gearMst c,
    slotitem KC3Master gearId = Some gearMst
    ∧ is_fighter gearMst = true
    ∧ 0 < or_zero (api_tyku gearMst)
    ∧ resolved_capacity sizes shipMst slotIdx = Some c.
Proof.
  unfold slot_outcome. split.
  - intros (c & x & Ho).
    destruct (slotitem KC3Master gearId) as [gearMst|]; [|done].
    destruct (is_fighter gearMst) eqn:Hf.
    + destruct (resolved_capacity sizes shipMst slotIdx) as [c'|]; [|done].
      destruct (Z.ltb_spec 0 (or_zero (api_tyku gearMst))); [|done].
      by exists gearMst, c'.
    + destruct (is_recon gearMst); [|done].
      by destruct (resolved_capacity sizes shipMst slotIdx).
  - intros (gearMst & c & -> & -> & Hs & ->).
    destruct (Z.ltb_spec 0 (or_zero (api_tyku gearMst))); [|lia].
    by do 2 eexists.
Qed.

Lemma foldl_add_outcome_false os :
  ∀ p c n r p' c' n' r',
    foldl add_outcome (p, c, n, r) os = (p', c', n', r') →
    (p = PFalse → c = of_Z 0) →
    p' = PFalse → c' = of_Z 0.
Proof.
  induction os as [|o rest IH]; intros p c n r p' c' n' r';
    cbn [foldl].
  - intros [= <- <- <- <-]. tauto.
  - intros Hrest Hinv. destruct o as [v|capacity x|capacity|capacity|];
      simpl in Hrest; eapply IH; try exact Hrest; try done.
Qed.

(** While [totalPower] is the boolean [false], [totalCapacity] is 0: a
    capacity is only counted there together with a power term. *)
Theorem false_power_means_no_capacity ships enemyShipSlots enemySlotSizes
    c n r e :
  enemyFighterPower KC3Master KC3GearManager (Some ships)
    enemyShipSlots enemySlotSizes
  = Normal [VPower PFalse; VNumber c; VNumber n; VNumber r; VExceptions e] →
  c = of_Z 0.
Proof.
  rewrite enemyFighterPower_present.
  set (st := fleet_step enemyShipSlots enemySlotSizes 0%nat ships initial).
  pose proof (fleet_totals enemyShipSlots enemySlotSizes ships) as Htotals.
  fold st in Htotals. unfold result_array. intros [= Hp Hc _ _ _].
  unfold totals_of in Htotals. rewrite Hp, Hc in Htotals. symmetry in Htotals.
  by eapply (foldl_add_outcome_false _ _ _ _ _ _ _ _ _ Htotals).
Qed.

Lemma foldl_add_outcome_power os :
  ∀ p c n r,
    (foldl add_outcome (p, c, n, r) os).1.1.1 ≠ PFalse
    ↔ p ≠ PFalse ∨ existsb is_powered os = true.
Proof.
  induction os as [|o rest IH]; intros p c n r; cbn [foldl existsb].
  - simpl. split; [by left|]. by intros [?|?].
  - destruct o as [v|capacity x|capacity|capacity|]; simpl; rewrite IH;
      try tauto.
    split; [by right|by left].
Qed.

Lemma elem_of_slots_outcomes sizes shipMst shipSlots o :
  ∀ slotIdx,
    o ∈ slots_outcomes sizes shipMst slotIdx shipSlots ↔
    ∃ j gearId, shipSlots !! j = Some gearId
      ∧ o = slot_outcome sizes shipMst (slotIdx + j) gearId.
Proof.
  induction shipSlots as [|g rest IH]; intros slotIdx;
    cbn [slots_outcomes].
  - split; [by intros ?%elem_of_nil|]. by intros (j & ? & ? & _).
  - rewrite elem_of_cons, IH. split.
    + intros [->|(j & g' & Hj & ->)].
      * exists 0%nat, g. by rewrite Nat.add_0_r.
      * exists (S j), g'. by rewrite Nat.add_succ_r.
    + intros ([|j] & g' & Hj & ->).
      * simpl in Hj. injection Hj as <-. left. by rewrite Nat.add_0_r.
      * right. exists j, g'. by rewrite Nat.add_succ_r.
Qed.

Lemma elem_of_concat {A} (x : A) (ls : list (list A)) :
  x ∈ concat ls ↔ ∃ l, x ∈ l ∧ l ∈ ls.
Proof.
  induction ls as [|l0 ls IH]; simpl.
  - split; [by intros ?%elem_of_nil|]. by intros (l & _ & ?%elem_of_nil).
  - rewrite elem_of_app, IH. split.
    + intros [?|(l & ? & ?)]; [exists l0|exists l]; split; try done;
        [by left|by right].
    + intros (l & Hx & [->|?]%elem_of_cons); [by left|right; by exists l].
Qed.

Lemma elem_of_fleet_outcomes ships enemyShipSlots enemySlotSizes o :
  o ∈ fleet_outcomes ships enemyShipSlots enemySlotSizes ↔
  ∃ i id shipMst shipSlots j gearId,
    ships !! i = Some (Some id)
    ∧ is_placeholder (Some id) = false
    ∧ ship_master id = Some shipMst
    ∧ layout_of (index (or_empty enemyShipSlots) i) shipMst = Some shipSlots
    ∧ filter (λ id, 0 < id) shipSlots !! j = Some gearId
    ∧ o = slot_outcome (index (or_empty enemySlotSizes) i) shipMst j gearId.
Proof.
  unfold fleet_outcomes. rewrite elem_of_concat. split.
  - intros (os & Ho & Hos).
    apply list_elem_of_fmap in Hos as (rw & -> & Hrw).
    apply list_elem_of_fmap in Hrw as (i & -> & _).
    unfold row_at, row_outcomes in Ho.
    destruct (index ships i) as [id|] eqn:Hi; [|by apply elem_of_nil in Ho].
    destruct ((id =? 0) || (id <? 0)) eqn:Hv; [by apply elem_of_nil in Ho|].
    destruct (ship_master id) as [shipMst|] eqn:Hm;
      [|by apply elem_of_nil in Ho].
    destruct (layout_of _ shipMst) as [shipSlots|] eqn:Hl;
      [|by apply elem_of_nil in Ho].
    apply elem_of_slots_outcomes in Ho as (j & g & Hj & ->).
    exists i, id, shipMst, shipSlots, j, g. repeat split; try done.
    unfold index in Hi. by destruct (ships !! i) as [[?|]|]; simplify_eq/=.
  - intros (i & id & shipMst & shipSlots & j & g & Hi & Hv & Hm & Hl & Hj & ->).
    exists (row_outcomes (row_at ships enemyShipSlots enemySlotSizes i)).
    split.
    + unfold row_at, row_outcomes, index. rewrite Hi. simpl.
      unfold is_placeholder in Hv. rewrite Hv, Hm.
      unfold index in Hl. rewrite Hl.
      apply elem_of_slots_outcomes. by exists j, g.
    + apply list_elem_of_fmap. eexists. split; [done|].
      apply list_elem_of_fmap. exists i. split; [done|].
      apply elem_of_seq. split; [lia|]. simpl. by eapply lookup_lt_Some.
Qed.

(** [totalPower] is a number, and no longer the boolean [false], exactly
    when some valid ship of the fleet with master data and a slot layout
    holds, in a slot of its filtered layout, a fighter-type gear with a
    positive anti-air stat whose capacity is resolved. *)
Theorem total_power_is_a_number_iff ships enemyShipSlots enemySlotSizes :
  ∃ p c n r e,
    enemyFighterPower KC3Master KC3GearManager (Some ships)
      enemyShipSlots enemySlotSizes
    = Normal [VPower p; VNumber c; VNumber n; VNumber r; VExceptions e]
    ∧ (p ≠ PFalse ↔
       ∃ i id shipMst shipSlots j gearId gearMst capacity,
         ships !! i = Some (Some id)
         ∧ is_placeholder (Some id) = false
         ∧ ship_master id = Some shipMst
         ∧ layout_of (index (or_empty enemyShipSlots) i) shipMst
           = Some shipSlots
         ∧ filter (λ id, 0 < id) shipSlots !! j = Some gearId
         ∧ slotitem KC3Master gearId = Some gearMst
         ∧ is_fighter gearMst = true
         ∧ 0 < or_zero (api_tyku gearMst)
         ∧ resolved_capacity (index (or_empty enemySlotSizes) i) shipMst j
           = Some capacity).
Proof.
  rewrite enemyFighterPower_present. do 5 eexists. split; [done|].
  change (totalPower ?st) with (totals_of st).1.1.1.
  rewrite fleet_totals. unfold totals_of, initial. cbn [totalPower
    totalCapacity noAirPowerCapacity reconCapacity].
  rewrite foldl_add_outcome_power, existsb_exists. split.
  - intros [?|(o & Ho%list_elem_of_In & Hpow)]; [done|].
    apply elem_of_fleet_outcomes in Ho
      as (i & id & shipMst & shipSlots & j & g & Hi & Hv & Hm & Hl & Hj & ->).
    destruct (slot_outcome _ shipMst j g) as [|c x| | |] eqn:Ho; try done.
    assert (∃ c x, slot_outcome (index (or_empty enemySlotSizes) i)
                     shipMst j g = Powered c x) as Hex by eauto.
    apply slot_outcome_powered in Hex as (gearMst & c' & ? & ? & ? & ?).
    by exists i, id, shipMst, shipSlots, j, g, gearMst, c'.
  - intros (i & id & shipMst & shipSlots & j & g & gearMst & c
            & Hi & Hv & Hm & Hl & Hj & Hg & Hf & Hs & Hc).
    right.
    destruct (proj2 (slot_outcome_powered
                (index (or_empty enemySlotSizes) i) shipMst j g))
      as (c' & x & Ho); [by exists gearMst, c|].
    exists (Powered c' x). split; [|done].
    apply list_elem_of_In, elem_of_fleet_outcomes.
    by exists i, id, shipMst, shipSlots, j, g.
Qed.

(** When the capacities that the slots add are integers that are not
    negative and the exact sum behind each total is below [2^53], the
    totals of the result are these sums: no addition has rounded. *)
Theorem totals_are_exact_sums ships enemyShipSlots enemySlotSizes
    power capacity noAirPower recon :
  exact_sums (fleet_outcomes ships enemyShipSlots enemySlotSizes)
  = Some (power, capacity, noAirPower, recon) →
  power < 2 ^ 53 → capacity < 2 ^ 53 →
  noAirPower < 2 ^ 53 → recon < 2 ^ 53 →
  ∃ e,
    enemyFighterPower KC3Master KC3GearManager (Some ships)
      enemyShipSlots enemySlotSizes
    = Normal
        [VPower
           (if existsb is_powered
                 (fleet_outcomes ships enemyShipSlots enemySlotSizes)
            then PNum (of_Z power) else PFalse);
         VNumber (of_Z capacity); VNumber (of_Z noAirPower);
         VNumber (of_Z recon); VExceptions e].
Proof.
  intros Hsum ????. rewrite enemyFighterPower_present.
  set (st := fleet_step enemyShipSlots enemySlotSizes 0%nat ships initial).
  pose proof (fleet_totals_exact enemyShipSlots enemySlotSizes ships
                power capacity noAirPower recon Hsum) as Htotals.
  fold st in Htotals. unfold totals_of, totals_of_counts in Htotals.
  injection (Htotals ltac:(done) ltac:(done) ltac:(done) ltac:(done))
    as Hp Hc Hn Hr.
  exists (exceptions st). unfold result_array. by rewrite Hp, Hc, Hn, Hr.
Qed.

End Effects.

(** ** The function on concrete fleets *)

(** C1, the claim as stated fails: for the fleet [[-1]] the first element of
    the result is [false], not the number 0. *)
Lemma placeholders_total_power_is_false :
  [Some (-1)] ≠ ([] : list (option Z))
  ∧ Forall (λ id, is_placeholder id = true) [Some (-1)]
  ∧ enemyFighterPower Sample.KC3Master Sample.KC3GearManager
      (Some [Some (-1)]) None None
    ≠ Normal [VPower (PNum (of_Z 0)); VNumber (of_Z 0); VNumber (of_Z 0);
              VNumber (of_Z 0); VExceptions ∅].
Proof.
  split; [done|]. split; [by repeat constructor|].
  vm_compute. discriminate.
Qed.

Lemma placeholders_only_witness :
  enemyFighterPower Sample.KC3Master Sample.KC3GearManager
    (Some [Some (-1); None; Some 0]) None None
  = Normal [VPower PFalse; VNumber (of_Z 0); VNumber (of_Z 0);
            VNumber (of_Z 0); VExceptions ∅].
Proof.
  apply (placeholders_only Sample.KC3Master Sample.KC3GearManager).
  - discriminate.
  - repeat constructor.
Defined.

(** C2, the claim as stated fails: the empty array is truthy, so the empty
    fleet gets the 5-element result and no [ship] key. *)
Lemma empty_fleet_is_not_short :
  enemyFighterPower Sample.KC3Master Sample.KC3GearManager (Some []) None None
  ≠ Normal [VPower PFalse; VNumber (of_Z 0);
            VExceptions {["ship" := ShipNull]}].
Proof. vm_compute. discriminate. Qed.

(** C3, what the code does: with the slots [[-1, 519]] and the capacities
    [[3, 5]] of one ship, the fighter 519, which stands in slot 1 with
    capacity 5, is given the capacity 3 of slot 0, its position once the
    placeholder is filtered out: the totals are [floor(sqrt(3) * 10) = 17]
    and 3 instead of [floor(sqrt(5) * 10) = 22] and 5. *)
Theorem capacity_read_at_filtered_position :
  enemyFighterPower Sample.KC3Master Sample.KC3GearManager
    (Some [Some 1510]) (Some [Some [-1; 519]]) (Some [Some [3; 5]])
  = Normal [VPower (PNum (of_Z 17)); VNumber (of_Z 3); VNumber (of_Z 0);
            VNumber (of_Z 0); VExceptions ∅]
  ∧ floor_sqrt_times 5 10 = of_Z 22.
Proof. split; vm_compute; reflexivity. Qed.







(** C8, the claim as stated fails: a sum of doubles that rounds depends on
    the order of its terms.  Three ships carry one recon gear each, with the
    capacities [2^53], 1 and 1.  In this order [reconCapacity] ends as
    [2^53], each addition of 1 being rounded away; with the ship of
    capacity [2^53] moved to the end it is [2^53 + 2]. *)
Lemma reordered_sums_round_differently :
  [1; 2; 0]%nat ≡ₚ seq 0 (length [Some 1510; Some 1520; Some 101])
  ∧ enemyFighterPower Sample.KC3Master Sample.KC3GearManager
      (Some [Some 1510; Some 1520; Some 101])
      (Some [Some [530]; Some [530]; Some [530]])
      (Some [Some [9007199254740992]; Some [1]; Some [1]])
    = Normal [VPower PFalse; VNumber (of_Z 0); VNumber (of_Z 0);
              VNumber (of_Z 9007199254740992); VExceptions ∅]
  ∧ enemyFighterPower Sample.KC3Master Sample.KC3GearManager
      (Some (reorder [1; 2; 0]%nat [Some 1510; Some 1520; Some 101]))
      (reorder [1; 2; 0]%nat <$> Some [Some [530]; Some [530]; Some [530]])
      (reorder [1; 2; 0]%nat
         <$> Some [Some [9007199254740992]; Some [1]; Some [1]])
    = Normal [VPower PFalse; VNumber (of_Z 0); VNumber (of_Z 0);
              VNumber (of_Z 9007199254740994); VExceptions ∅]
  ∧ of_Z 9007199254740992 ≠ of_Z 9007199254740994.
Proof.
  split; [|split; [|split]].
  - simpl. eapply perm_trans; [|apply perm_swap].
    apply perm_skip, perm_swap.
  - vm_compute. reflexivity.
  - vm_compute. reflexivity.
  - vm_compute. discriminate.
Qed.

Lemma totals_invariant_under_reordering_witness :
  ∃ p c n r e e',
    enemyFighterPower Sample.KC3Master Sample.KC3GearManager
      (Some (reorder [2; 0; 1]%nat [Some 1510; Some 101; Some 1520]))
      (reorder [2; 0; 1]%nat <$> None)
      (reorder [2; 0; 1]%nat <$> Some [Some [9; 4]; None; Some [1]])
    = Normal [VPower p; VNumber c; VNumber n; VNumber r; VExceptions e']
    ∧ enemyFighterPower Sample.KC3Master Sample.KC3GearManager
        (Some [Some 1510; Some 101; Some 1520])
        None (Some [Some [9; 4]; None; Some [1]])
      = Normal [VPower p; VNumber c; VNumber n; VNumber r; VExceptions e].
Proof.
  refine (totals_invariant_under_reordering Sample.KC3Master
            Sample.KC3GearManager [Some 1510; Some 101; Some 1520]
            None (Some [Some [9; 4]; None; Some [1]]) [2; 0; 1]%nat
            30 9 4 2 _ _ _ _ _ _).
  - simpl. eapply perm_trans; [apply perm_swap|].
    apply perm_skip, perm_swap.
  - vm_compute. reflexivity.
  - reflexivity.
  - reflexivity.
  - reflexivity.
  - reflexivity.
Defined.


(** ** The power term on the values of the game *)

(** On the capacities and stats of the game (up to 200 planes in a slot,
    stats up to 20) the binary64 computation is exact: it yields the integer
    part of the real number [sqrt(c) * s]. *)
Theorem floor_sqrt_times_exact (c s : Z) :
  0 ≤ c ≤ 200 → 1 ≤ s ≤ 20 →
  Math_floor (times (Math_sqrt (of_Z c)) (of_Z s)) = of_Z (Z.sqrt (c * s * s)).
Proof.
  intros Hc Hs.
  assert (Hall : exact_upto 200 20 = true) by (vm_compute; reflexivity).
  unfold exact_upto in Hall. rewrite forallb_forall in Hall.
  specialize (Hall (Z.to_nat c)). rewrite forallb_forall in Hall.
  specialize (Hall ltac:(apply in_seq; lia) (Z.to_nat (s - 1))
                ltac:(apply in_seq; lia)).
  replace (Z.of_nat (S (Z.to_nat (s - 1)))) with s in Hall by lia.
  replace (Z.of_nat (Z.to_nat c)) with c in Hall by lia.
  by apply bool_decide_eq_true in Hall.
Qed.

Lemma floor_sqrt_times_exact_witness :
  Math_floor (times (Math_sqrt (of_Z 18)) (of_Z 11)) = of_Z 46.
Proof.
  refine (floor_sqrt_times_exact 18 11 _ _); lia.
Defined.

(** ** Witnesses of the further properties *)

Lemma trailing_placeholders_ignored_witness :
  enemyFighterPower Sample.KC3Master Sample.KC3GearManager
    (Some ([Some 1510; Some 1999] ++ [Some (-1); None])) None None
  = enemyFighterPower Sample.KC3Master Sample.KC3GearManager
      (Some [Some 1510; Some 1999]) None None.
Proof.
  apply (trailing_placeholders_ignored Sample.KC3Master Sample.KC3GearManager).
  repeat constructor.
Defined.

Lemma overrides_read_at_fleet_indices_witness :
  enemyFighterPower Sample.KC3Master Sample.KC3GearManager
    (Some [Some 1510]) None (Some [Some [7; 7; 7]; Some [1]])
  = enemyFighterPower Sample.KC3Master Sample.KC3GearManager
      (Some [Some 1510]) (Some [None; Some [519]]) (Some [Some [7; 7; 7]]).
Proof.
  apply (overrides_read_at_fleet_indices Sample.KC3Master
           Sample.KC3GearManager).
  intros [|i] Hi; [split; reflexivity|simpl in Hi; lia].
Defined.

Lemma false_power_means_no_capacity_witness :
  enemyFighterPower Sample.KC3Master Sample.KC3GearManager
    (Some [Some 1510]) (Some [Some [520; 530]]) None
  = Normal [VPower PFalse; VNumber (of_Z 0); VNumber (of_Z 9);
            VNumber (of_Z 5); VExceptions ∅]
  ∧ of_Z 0 = of_Z 0.
Proof.
  assert (Hrun :
    enemyFighterPower Sample.KC3Master Sample.KC3GearManager
      (Some [Some 1510]) (Some [Some [520; 530]]) None
    = Normal [VPower PFalse; VNumber (of_Z 0); VNumber (of_Z 9);
              VNumber (of_Z 5); VExceptions ∅])
    by (vm_compute; reflexivity).
  split; [exact Hrun|].
  exact (false_power_means_no_capacity Sample.KC3Master
           Sample.KC3GearManager [Some 1510] (Some [Some [520; 530]]) None
           (of_Z 0) (of_Z 9) (of_Z 5) ∅ Hrun).
Defined.

Lemma totals_are_exact_sums_witness :
  ∃ e,
    enemyFighterPower Sample.KC3Master Sample.KC3GearManager
      (Some [Some 1510; Some 101; Some 1520])
      None (Some [Some [9; 4]; None; Some [1]])
    = Normal [VPower (PNum (of_Z 30)); VNumber (of_Z 9); VNumber (of_Z 4);
              VNumber (of_Z 2); VExceptions e].
Proof.
  refine (totals_are_exact_sums Sample.KC3Master Sample.KC3GearManager
            [Some 1510; Some 101; Some 1520] None
            (Some [Some [9; 4]; None; Some [1]]) 30 9 4 2 _ _ _ _ _).
  - vm_compute. reflexivity.
  - reflexivity.
  - reflexivity.
  - reflexivity.
  - reflexivity.
Defined.

(** ** The land-base functions *)

Lemma filter_on_sortie {A} (f : A → LandBase → A) (l : list LandBase) :
  ∀ a,
    foldl (λ a base, if action base =? 1 then f a base else a) a l
    = foldl f a (on_sortie l).
Proof.
  unfold on_sortie. induction l as [|base rest IH]; intros a; [done|].
  cbn [foldl]. destruct (Z.eqb_spec (action base) 1) as [Heq|Hne].
  - by rewrite filter_cons_True, IH.
  - by rewrite filter_cons_False, IH.
Qed.

Lemma on_sortie_idemp (l : list LandBase) : on_sortie (on_sortie l) = on_sortie l.
Proof.
  unfold on_sortie. rewrite list_filter_filter. apply list_filter_iff. tauto.
Qed.

(** The bases that are not set to sortie have no part in the sortie cost:
    without them the cost is the same. *)
Theorem sortie_cost_of_sortie_bases (PlayerManager : Player) :
  getLandBasesSortieCost {| bases := on_sortie (bases PlayerManager) |}
  = getLandBasesSortieCost PlayerManager.
Proof.
  unfold getLandBasesSortieCost. cbn [bases].
  by rewrite !(filter_on_sortie (λ total base,
                 add_cost total (calcSortieCost base))), on_sortie_idemp.
Qed.

Lemma sum_of_nonneg (l : list Z) :
  Forall (λ x, 0 ≤ x) l → 0 ≤ sum_of l.
Proof. induction 1 as [|x l Hx _ IH]; simpl; [done|lia]. Qed.

Lemma foldl_plus_exact (l : list Z) :
  ∀ a, 0 ≤ a → Forall (λ x, 0 ≤ x) l → a + sum_of l < 2 ^ 53 →
    foldl (λ total x, plus total (of_Z x)) (of_Z a) l = of_Z (a + sum_of l).
Proof.
  induction l as [|x rest IH]; intros a Ha Hl Hbound; cbn [foldl sum_of foldr].
  - by rewrite Z.add_0_r.
  - apply Forall_cons in Hl as [Hx Hrest].
    pose proof (sum_of_nonneg _ Hrest) as Hsum.
    cbn [sum_of foldr] in Hbound. fold (sum_of rest) in Hbound |- *.
    rewrite plus_of_Z by lia. rewrite IH by (done || lia).
    by rewrite Z.add_assoc.
Qed.

Lemma foldl_add_cost (costs : list (resources Z)) :
  ∀ total,
    foldl add_cost total costs
    = Resources
        (foldl (λ t x, plus t (of_Z x)) (fuel total) (fuel <$> costs))
        (foldl (λ t x, plus t (of_Z x)) (ammo total) (ammo <$> costs))
        (foldl (λ t x, plus t (of_Z x)) (steel total) (steel <$> costs))
        (foldl (λ t x, plus t (of_Z x)) (bauxite total) (bauxite <$> costs)).
Proof.
  induction costs as [|cost rest IH]; intros total; cbn [foldl fmap list_fmap].
  - by destruct total.
  - by rewrite IH.
Qed.

Lemma add_costs_exact (costs : list (resources Z)) :
  Forall nonneg costs →
  below (2 ^ 53) (sums costs) →
  foldl add_cost (Resources (of_Z 0) (of_Z 0) (of_Z 0) (of_Z 0)) costs
  = doubles (sums costs).
Proof.
  intros Hcosts (Hf & Ha & Hs & Hb). unfold sums in *.
  cbn [fuel ammo steel bauxite] in Hf, Ha, Hs, Hb.
  rewrite foldl_add_cost. unfold doubles. cbn [fuel ammo steel bauxite].
  rewrite !foldl_plus_exact; try done; try lia;
    apply Forall_fmap; (eapply Forall_impl; [exact Hcosts|]);
    unfold nonneg; simpl; tauto.
Qed.

(** When no cost is negative and the four sums are below [2^53], the
    resupply cost is the exact sum of the costs of all the bases. *)
Theorem resupply_cost_exact (PlayerManager : Player) :
  Forall nonneg (calcResupplyCost <$> bases PlayerManager) →
  below (2 ^ 53) (sums (calcResupplyCost <$> bases PlayerManager)) →
  getLandBasesResupplyCost PlayerManager
  = doubles (sums (calcResupplyCost <$> bases PlayerManager)).
Proof.
  intros Hcosts Hbound. unfold getLandBasesResupplyCost.
  rewrite <- (foldl_fmap add_cost _ _ calcResupplyCost).
  by apply add_costs_exact.
Qed.

(** When no cost is negative and the four sums are below [2^53], the
    sortie cost is the exact sum of the costs of the bases set to sortie. *)
Theorem sortie_cost_exact (PlayerManager : Player) :
  Forall nonneg (calcSortieCost <$> on_sortie (bases PlayerManager)) →
  below (2 ^ 53) (sums (calcSortieCost <$> on_sortie (bases PlayerManager))) →
  getLandBasesSortieCost PlayerManager
  = doubles (sums (calcSortieCost <$> on_sortie (bases PlayerManager))).
Proof.
  intros Hcosts Hbound. unfold getLandBasesSortieCost.
  rewrite (filter_on_sortie (λ total base,
             add_cost total (calcSortieCost base))).
  rewrite <- (foldl_fmap add_cost _ _ calcSortieCost).
  by apply add_costs_exact.
Qed.

Lemma resupply_cost_exact_witness :
  getLandBasesResupplyCost SamplePlayer.PlayerManager
  = Resources (of_Z 15) (of_Z 0) (of_Z 0) (of_Z 25).
Proof.
  refine (resupply_cost_exact SamplePlayer.PlayerManager _ _).
  - repeat constructor; simpl; lia.
  - repeat split; reflexivity.
Defined.

Lemma sortie_cost_exact_witness :
  getLandBasesSortieCost SamplePlayer.PlayerManager
  = Resources (of_Z 72) (of_Z 36) (of_Z 0) (of_Z 0).
Proof.
  refine (sortie_cost_exact SamplePlayer.PlayerManager _ _).
  - repeat constructor; simpl; lia.
  - repeat split; reflexivity.
Defined.

Lemma worst_cond_fold (l : list LandBase) :
  ∀ worst,
    let result := foldl (λ worst base, Z.max worst (worstCond base)) worst l in
    worst ≤ result
    ∧ (∀ base, base ∈ l → worstCond base ≤ result)
    ∧ (result = worst ∨ ∃ base, base ∈ l ∧ worstCond base = result).
Proof.
  induction l as [|base rest IH]; intros worst; cbn [foldl].
  - split; [lia|]. split; [by intros ? ?%elem_of_nil|by left].
  - destruct (IH (Z.max worst (worstCond base))) as (Hle & Hall & Hex).
    split; [lia|]. split.
    + intros b [->|Hb]%elem_of_cons; [lia|by apply Hall].
    + destruct Hex as [Heq|(b & Hb & Heq)].
      * destruct (Z.max_spec worst (worstCond base)) as [[_ Hm]|[_ Hm]].
        -- right. exists base. split; [by left|]. lia.
        -- left. lia.
      * right. exists b. split; [by right|done].
Qed.

(** The worst cond is the largest of 1 and the cond values of the bases set
    to sortie: it is at least 1 and at least the cond of each such base, and
    it is 1 or the cond of one of them. *)
Theorem worst_cond_is_maximum (PlayerManager : Player) :
  1 ≤ getLandBasesWorstCond PlayerManager
  ∧ (∀ base, base ∈ on_sortie (bases PlayerManager) →
       worstCond base ≤ getLandBasesWorstCond PlayerManager)
  ∧ (getLandBasesWorstCond PlayerManager = 1
     ∨ ∃ base, base ∈ on_sortie (bases PlayerManager)
         ∧ worstCond base = getLandBasesWorstCond PlayerManager).
Proof.
  unfold getLandBasesWorstCond.
  rewrite (filter_on_sortie (λ worst base, Z.max worst (worstCond base))).
  apply worst_cond_fold.
Qed.

(** When the cond of every base set to sortie is in [[1, 3]], so is the
    worst cond. *)
Theorem worst_cond_range (PlayerManager : Player) :
  (∀ base, base ∈ on_sortie (bases PlayerManager) →
     1 ≤ worstCond base ≤ 3) →
  1 ≤ getLandBasesWorstCond PlayerManager ≤ 3.
Proof.
  intros Hrange.
  destruct (worst_cond_fold (on_sortie (bases PlayerManager)) 1)
    as (Hle & _ & Hex).
  unfold getLandBasesWorstCond.
  rewrite (filter_on_sortie (λ worst base, Z.max worst (worstCond base))).
  split; [done|].
  destruct Hex as [->|(base & Hbase & <-)]; [lia|].
  by apply Hrange.
Qed.

Lemma worst_cond_range_witness :
  1 ≤ getLandBasesWorstCond SamplePlayer.PlayerManager ≤ 3.
Proof.
  apply (worst_cond_range SamplePlayer.PlayerManager).
  intros base Hbase. vm_compute in Hbase.
  apply elem_of_cons in Hbase as [->|Hbase]; [simpl; lia|].
  apply elem_of_cons in Hbase as [->|Hbase]; [simpl; lia|].
  by apply elem_of_nil in Hbase.
Defined.
